(** * 2048: the grid engine and its pseudo-random source

    A shallow embedding of [src/2048.cpp]: the [Xorshift] generator and the
    [Grid<size>] engine ([spawn_new_number], [move_helper], [move], [reset]
    and the constructor), the engine side of [TUI::benchmark] and the row
    builders of [TUI::draw_skeleton], followed by their properties.  The
    calls into ncurses are not modelled.

    Conventions of the embedding.
    - [uint8_t], [unsigned short] and [uint32_t]/[unsigned int] values are
      integers of [Z] kept in range by an explicit reduction modulo [2^8],
      [2^16] and [2^32].
    - The board [std::array<uint8_t, size * size>] is a [list Z]; iterators
      into it are [Z] offsets from [begin()], so that the negative strides of
      [down] and [right] are written as in the source.
    - [spawn_new_number] returns [None] where the source has no defined
      behaviour: a remainder by zero, or the [__builtin_unreachable()] that
      follows its loop.
    - [1 << e] is modelled by [Z.shiftl 1 e]; C++ defines it for [e < 32]
      only, and the statements about the score are restricted to boards whose
      exponents are below 32.  The statements about the board and the
      counter do not depend on the score; they are made for boards whose
      exponents are at most 254, so that no [uint8_t] cell wraps around.
    - The template parameter [size] is a [nat]; the source documents
      [size <= 40], which the statements about [move_helper] assume together
      with [1 <= size]. *)

From Stdlib Require Import ZArith List Bool Lia Arith.
Import ListNotations.

Local Open Scope Z_scope.

(** ** Fixed-width integers *)

Definition u8 (x : Z) : Z := x mod 2 ^ 8.
Definition u16 (x : Z) : Z := x mod 2 ^ 16.
Definition u32 (x : Z) : Z := x mod 2 ^ 32.

Definition b2z (b : bool) : Z := if b then 1 else 0.

(** ** The generator: [struct Xorshift] *)

Module Xorshift.

(** The only field is [uint32_t state]. *)
Definition t := Z.

(** [Xorshift(uint32_t seed) : state(seed == 0 ? 1 : seed)] *)
Definition make (seed : Z) : t := if seed =? 0 then 1 else seed.

(** [operator()]: the three compound assignments, each shift taken in
    [uint32_t].  The result is the pair of the returned value and the new
    state (they coincide). *)
Definition next (state : t) : Z * t :=
  let state := Z.lxor state (u32 (Z.shiftl state 13)) in
  let state := Z.lxor state (Z.shiftr state 17) in
  let state := Z.lxor state (u32 (Z.shiftl state 15)) in
  (state, state).

(** The first [n] values returned by successive calls. *)
Fixpoint outputs (n : nat) (state : t) : list Z :=
  match n with
  | O => []
  | S n' => let (r, state') := next state in r :: outputs n' state'
  end.

End Xorshift.

(** A three-stage XOR-shift on 32-bit words with shift amounts [a] (left),
    [b] (right) and [c] (left), written with a mask as in the reference
    description of the algorithm.  This definition follows the
    specification's wording, not the source; it is what [Xorshift.next] is
    compared with. *)
Module XorshiftSpec.

Definition mask32 : Z := Z.ones 32.

Definition step (a b c : Z) (x : Z) : Z :=
  let x := Z.land (Z.lxor x (Z.shiftl x a)) mask32 in
  let x := Z.lxor x (Z.shiftr x b) in
  Z.land (Z.lxor x (Z.shiftl x c)) mask32.

Fixpoint outputs (a b c : Z) (n : nat) (x : Z) : list Z :=
  match n with
  | O => []
  | S n' => let y := step a b c x in y :: outputs a b c n' y
  end.

(** The canonical generator of the specification: 13, 17, 5. *)
Definition canonical := outputs 13 17 5.

End XorshiftSpec.

(** ** [enum class direction] *)

Module direction.
Inductive t : Set := up | down | left | right.

(** [static_cast<std::underlying_type_t<direction>>(dir)] *)
Definition integral (d : t) : Z :=
  match d with
  | up => 0 (* 0b00 *)
  | down => 1 (* 0b01 *)
  | left => 2 (* 0b10 *)
  | right => 3 (* 0b11 *)
  end.
End direction.

(** ** [Grid<size>::State] *)

Module State.
Inductive t : Set := running | ended.
End State.

(** ** Board access through iterators *)

Fixpoint upd (n : nat) (v : Z) (l : list Z) {struct l} : list Z :=
  match l with
  | [] => []
  | x :: r => match n with O => v :: r | S n' => x :: upd n' v r end
  end.

(** [*p] for an iterator at offset [p]. *)
Definition rd (g : list Z) (p : Z) : Z :=
  if p <? 0 then 0 else nth (Z.to_nat p) g 0.

(** [*p = v] *)
Definition wr (g : list Z) (p : Z) (v : Z) : list Z :=
  if p <? 0 then g else upd (Z.to_nat p) v g.

(** [std::iter_swap(p, q)] *)
Definition iter_swap (g : list Z) (p q : Z) : list Z :=
  wr (wr g p (rd g q)) q (rd g p).

(** The number of zero entries of a board. *)
Fixpoint zeros (g : list Z) : Z :=
  match g with
  | [] => 0
  | x :: r => (if x =? 0 then 1 else 0) + zeros r
  end.

(** The cells that hold a tile, in board order. *)
Definition tiles (g : list Z) : list Z := filter (fun x => negb (x =? 0)) g.

(** ** [template <unsigned short size> struct Grid] *)

Record Grid : Type := mkGrid {
  prng_ : Xorshift.t;
  empty_cells_count_ : Z;
  score_ : Z;
  state_ : State.t;
  grid_ : list Z
}.

Definition score (g : Grid) : Z := score_ g.
Definition state (g : Grid) : State.t := state_ g.
Definition data (g : Grid) : list Z := grid_ g.

(** *** [spawn_new_number] *)

(** The value stored in the chosen cell: [((prng_() / 4) == 0) + 1], for the
    generator output [r]. *)
Definition spawn_value (r : Z) : Z := u8 (b2z (r / 4 =? 0) + 1).

(** The range-for over [grid_], with [spawn_loc] and the generator threaded
    through.  Running off the end of the board is the
    [__builtin_unreachable()]. *)
Fixpoint spawn_scan (prng : Xorshift.t) (spawn_loc : Z) (cells : list Z)
  : option (list Z * Xorshift.t) :=
  match cells with
  | [] => None
  | x :: rest =>
      if (spawn_loc =? 0) && (x =? 0) then
        let (r, prng') := Xorshift.next prng in
        Some (spawn_value r :: rest, prng')
      else
        let spawn_loc' := if x =? 0 then u16 (spawn_loc - 1) else spawn_loc in
        match spawn_scan prng spawn_loc' rest with
        | Some (rest', prng') => Some (x :: rest', prng')
        | None => None
        end
  end.

Definition spawn_new_number (g : Grid) : option Grid :=
  if empty_cells_count_ g =? 0 then None (* prng_() % 0 *)
  else
    let (r, prng1) := Xorshift.next (prng_ g) in
    let spawn_loc := u16 (r mod empty_cells_count_ g) in
    match spawn_scan prng1 spawn_loc (grid_ g) with
    | Some (cells, prng2) =>
        Some {| prng_ := prng2;
                empty_cells_count_ := u16 (empty_cells_count_ g - 1);
                score_ := score_ g;
                state_ := state_ g;
                grid_ := cells |}
    | None => None
    end.

(** *** [move_helper] *)

(** The variables of [move_helper] that change while it runs: the three
    fields it writes and the locals [top], [it] and [modified]. *)
Record frame : Type := mkFrame {
  cells : list Z;
  empties : Z;
  points : Z;
  top : Z;
  it : Z;
  modified : bool
}.

(** The body of the inner [for]: the four-way [if] on [*it] and [*top]. *)
Definition body (it_stride : Z) (f : frame) : frame :=
  let g := cells f in
  if rd g (it f) =? 0 then f (* continue *)
  else if rd g (top f) =? 0 then
    {| cells := iter_swap g (it f) (top f);
       empties := empties f; points := points f;
       top := top f; it := it f; modified := true |}
  else if rd g (it f) =? rd g (top f) then
    let g1 := wr g (it f) 0 in
    let e := u16 (empties f + 1) in
    let s := u32 (points f + Z.shiftl 1 (rd g1 (top f))) in
    let g2 := wr g1 (top f) (u8 (rd g1 (top f) + 1)) in
    {| cells := g2; empties := e; points := s;
       top := top f + it_stride; it := it f; modified := true |}
  else
    let top' := top f + it_stride in
    if top' =? it f then
      {| cells := g; empties := empties f; points := points f;
         top := top'; it := it f; modified := modified f |}
    else
      {| cells := iter_swap g (it f) top';
         empties := empties f; points := points f;
         top := top'; it := it f; modified := true |}.

(** The increment part of the inner [for]: [it += it_stride]. *)
Definition advance (it_stride : Z) (f : frame) : frame :=
  {| cells := cells f; empties := empties f; points := points f;
     top := top f; it := it f + it_stride; modified := modified f |}.

(** [for (j = 1; j < size; j++, it += it_stride)], with [n] iterations
    left. *)
Fixpoint inner (it_stride : Z) (n : nat) (f : frame) : frame :=
  match n with
  | O => f
  | S n' => inner it_stride n' (advance it_stride (body it_stride f))
  end.

Section GridEngine.

(** The template parameter. *)
Variable size : nat.

Definition sz : Z := Z.of_nat size.

(** [grid_.begin() + ((size * size - 1) * (dir_integral & 1))] *)
Definition top_start (dir : direction.t) : Z :=
  (sz * sz - 1) * Z.land (direction.integral dir) 1.

(** The [switch]. *)
Definition top_stride (dir : direction.t) : Z :=
  match dir with
  | direction.up => 1
  | direction.down => -1
  | direction.left => sz
  | direction.right => - sz
  end.

Definition it_stride (dir : direction.t) : Z :=
  match dir with
  | direction.up => sz
  | direction.down => - sz
  | direction.left => 1
  | direction.right => -1
  end.

(** One iteration of the outer [for]: [auto it = top + it_stride] and the
    inner loop. *)
Definition line_pass (dir : direction.t) (f : frame) : frame :=
  inner (it_stride dir) (size - 1)
    {| cells := cells f; empties := empties f; points := points f;
       top := top f; it := top f + it_stride dir; modified := modified f |}.

(** [for (i = 0; i < size; i++, top = top_start + i * top_stride)], with
    [n] iterations left and the current value of [i]. *)
Fixpoint outer (dir : direction.t) (n : nat) (i : Z) (f : frame) : frame :=
  match n with
  | O => f
  | S n' =>
      let f1 := line_pass dir f in
      outer dir n' (i + 1)
        {| cells := cells f1; empties := empties f1; points := points f1;
           top := top_start dir + (i + 1) * top_stride dir;
           it := it f1; modified := modified f1 |}
  end.

(** [bool move_helper(direction dir)]: the new engine and the returned
    flag. *)
Definition move_frame (dir : direction.t) (g : Grid) : frame :=
  outer dir size 0
    {| cells := grid_ g; empties := empty_cells_count_ g;
       points := score_ g; top := top_start dir;
       it := top_start dir; modified := false |}.

Definition move_helper (dir : direction.t) (g : Grid) : Grid * bool :=
  let f := move_frame dir g in
  ({| prng_ := prng_ g; empty_cells_count_ := empties f;
      score_ := points f; state_ := state_ g; grid_ := cells f |},
   modified f).

(** *** [move], [reset] and the constructor *)

Definition move (dir : direction.t) (g : Grid) : option Grid :=
  if empty_cells_count_ g =? 0 then
    Some {| prng_ := prng_ g; empty_cells_count_ := empty_cells_count_ g;
            score_ := score_ g; state_ := State.ended; grid_ := grid_ g |}
  else
    let (g', m) := move_helper dir g in
    if m then spawn_new_number g' else Some g'.

(** [std::fill(grid_.begin(), grid_.end(), 0)] keeps the length of the
    array, which is [size * size]. *)
Definition reset (g : Grid) : option Grid :=
  spawn_new_number
    {| prng_ := prng_ g; empty_cells_count_ := u16 (sz * sz);
       score_ := score_ g; state_ := state_ g;
       grid_ := repeat 0 (length (grid_ g)) |}.

(** [Grid(uint32_t seed)] *)
Definition make (seed : Z) : option Grid :=
  spawn_new_number
    {| prng_ := Xorshift.make seed; empty_cells_count_ := u16 (sz * sz);
       score_ := 0; state_ := State.running;
       grid_ := repeat 0 (size * size) |}.

End GridEngine.

(** ** Auxiliary notions used to state the properties *)

(** *** Values a well-typed engine can hold *)

Definition is_u8 (x : Z) : Prop := 0 <= x < 2 ^ 8.

(** The fields hold values of their C++ types and the array has
    [size * size] entries. *)
Record well_typed (size : nat) (g : Grid) : Prop := {
  wt_length : length (grid_ g) = (size * size)%nat;
  wt_cells : Forall is_u8 (grid_ g);
  wt_empty : 0 <= empty_cells_count_ g < 2 ^ 16;
  wt_score : 0 <= score_ g < 2 ^ 32;
  wt_prng : 0 <= prng_ g < 2 ^ 32
}.

(** The bookkeeping invariant: the counter is the number of zero cells. *)
Definition counted (g : Grid) : Prop := empty_cells_count_ g = zeros (grid_ g).

(** *** The merges of a move *)

(** A merge, recorded by the exponent of the cursor cell before the
    increment and after it. *)
Record merge_event : Type := mkMerge { cursor_before : Z; cursor_after : Z }.

(** The event of one execution of [body]: [Some] exactly in its third
    branch. *)
Definition body_merge (it_stride : Z) (f : frame) : option merge_event :=
  let g := cells f in
  if rd g (it f) =? 0 then None
  else if rd g (top f) =? 0 then None
  else if rd g (it f) =? rd g (top f) then
    Some {| cursor_before := rd g (top f);
            cursor_after := rd (cells (body it_stride f)) (top f) |}
  else None.

Definition opt_list {A : Type} (o : option A) : list A :=
  match o with Some a => [a] | None => [] end.

Fixpoint inner_merges (it_stride : Z) (n : nat) (f : frame) : list merge_event :=
  match n with
  | O => []
  | S n' =>
      opt_list (body_merge it_stride f)
      ++ inner_merges it_stride n' (advance it_stride (body it_stride f))
  end.

Section Merges.

Variable size : nat.

Definition line_start (dir : direction.t) (f : frame) : frame :=
  {| cells := cells f; empties := empties f; points := points f;
     top := top f; it := top f + it_stride size dir; modified := modified f |}.

Fixpoint outer_merges (dir : direction.t) (n : nat) (i : Z) (f : frame)
  : list merge_event :=
  match n with
  | O => []
  | S n' =>
      let f1 := line_pass size dir f in
      inner_merges (it_stride size dir) (size - 1) (line_start dir f)
      ++ outer_merges dir n' (i + 1)
           {| cells := cells f1; empties := empties f1; points := points f1;
              top := top_start size dir + (i + 1) * top_stride size dir;
              it := it f1; modified := modified f1 |}
  end.

(** The merges performed by [move_helper dir] on [g], in order. *)
Definition helper_merges (dir : direction.t) (g : Grid) : list merge_event :=
  outer_merges dir size 0
    {| cells := grid_ g; empties := empty_cells_count_ g;
       points := score_ g; top := top_start size dir;
       it := top_start size dir; modified := false |}.

(** The merges performed by [move dir] on [g]: none when the board is
    found full. *)
Definition move_merges (dir : direction.t) (g : Grid) : list merge_event :=
  if empty_cells_count_ g =? 0 then [] else helper_merges dir g.

End Merges.

(** The sum of [2 ^ e] over a list of exponents. *)
Definition sum_pow2 (es : list Z) : Z := fold_right (fun e a => 2 ^ e + a) 0 es.

(** *** Lines of the board *)

(** The cells met from offset [base] in steps of [stride], [n] of them. *)
Definition pick (g : list Z) (base stride : Z) (n : nat) : list Z :=
  map (fun k => rd g (base + Z.of_nat k * stride)) (seq 0 n).

Section Lines.

Variable size : nat.

(** The offset of the [j]-th cell of line [i], counted from the leading
    edge: where [top] starts for line [i], and [j] steps of [it]. *)
Definition line_base (dir : direction.t) (i : nat) : Z :=
  top_start size dir + Z.of_nat i * top_stride size dir.

(** Line [i] of a board for a direction, leading edge first. *)
Definition line (dir : direction.t) (i : nat) (g : list Z) : list Z :=
  pick g (line_base dir i) (it_stride size dir) size.

End Lines.

(** *** The rule of the game, as a function on the tiles of a line *)

(** Tiles are taken from the leading edge; two equal neighbours become one
    tile of the next exponent, which is not looked at again. *)
Fixpoint merge_tiles (l : list Z) : list Z :=
  match l with
  | [] => []
  | a :: r =>
      match r with
      | [] => [a]
      | b :: r' => if a =? b then (a + 1) :: merge_tiles r' else a :: merge_tiles r
      end
  end.

(** [l] followed by zeros up to length [n]. *)
Definition pad (n : nat) (l : list Z) : list Z := l ++ repeat 0 (n - length l).

(** Each tile of the result is a tile of the input or stands for exactly
    two equal neighbouring tiles of the input, one exponent higher. *)
Inductive merged_once : list Z -> list Z -> Prop :=
| mo_nil : merged_once [] []
| mo_keep a l l' : merged_once l l' -> merged_once (a :: l) (a :: l')
| mo_pair a l l' : merged_once l l' -> merged_once (a :: a :: l) (a + 1 :: l').

(** *** The tile-4 outputs of the value selection *)

(** How many of the generator outputs [0 .. n-1] make [spawn_value] store
    exponent 2. *)
Definition count_four (n : nat) : nat :=
  length (filter (fun r => spawn_value (Z.of_nat r) =? 2) (seq 0 n)).

(** *** Sequences of moves *)

Fixpoint moves (size : nat) (dirs : list direction.t) (g : Grid) : option Grid :=
  match dirs with
  | [] => Some g
  | d :: ds =>
      match move size d g with
      | Some g' => moves size ds g'
      | None => None
      end
  end.

(** *** One line under the inner loop

    While the inner loop runs over one line, the line reads, from the leading
    edge: the cells before the cursor ([done]), the cursor cell ([cur]),
    [gap] empty cells, and the cells [it] has not reached yet.  One execution
    of [body] followed by [it += it_stride] consumes the first cell that is
    not yet reached; [changed] follows [modified]. *)

Record lstate : Type := mkL {
  done : list Z;
  cur : Z;
  gap : nat;
  changed : bool
}.

Definition rep (s : lstate) (rest : list Z) : list Z :=
  done s ++ cur s :: repeat 0 (gap s) ++ rest.

Definition astep (s : lstate) (x : Z) : lstate :=
  if x =? 0 then
    {| done := done s; cur := cur s; gap := S (gap s); changed := changed s |}
  else if cur s =? 0 then
    {| done := done s; cur := x; gap := S (gap s); changed := true |}
  else if x =? cur s then
    {| done := done s ++ [u8 (cur s + 1)]; cur := 0; gap := gap s;
       changed := true |}
  else
    {| done := done s ++ [cur s]; cur := x; gap := gap s;
       changed := changed s || negb (Nat.eqb (gap s) 0) |}.

Definition arun (s : lstate) (rest : list Z) : lstate := fold_left astep rest s.

(** The state in which the inner loop enters a line. *)
Definition lstart (l : list Z) (m : bool) : lstate :=
  {| done := []; cur := hd 0 l; gap := 0; changed := m |}.

(** A line of [n] cells from [base] with stride [d] lies inside a board of
    [len] cells and does not fold onto itself. *)
Definition line_in (len : nat) (base d : Z) (n : nat) : Prop :=
  d <> 0 /\
  (forall k : nat, (k < n)%nat -> 0 <= base + Z.of_nat k * d < Z.of_nat len).

(** The frame [f] of [move_helper] is at state [s] of the line
    [(base, d, n)], with the cells [rest] still to be visited. *)
Record tracks (len : nat) (base d : Z) (n : nat)
              (f : frame) (s : lstate) (rest : list Z) : Prop := {
  tr_length : length (cells f) = len;
  tr_cells : pick (cells f) base d n = rep s rest;
  tr_top : top f = base + Z.of_nat (length (done s)) * d;
  tr_it : it f = base + Z.of_nat (length (done s) + 1 + gap s) * d;
  tr_size : n = (length (done s) + 1 + gap s + length rest)%nat;
  tr_modified : modified f = changed s
}.

(** A cell weighs its distance from the far side of the leading edge when
    it holds a tile, and nothing when it is empty. *)
Fixpoint weight (i : Z) (l : list Z) : Z :=
  match l with
  | [] => 0
  | x :: r => (if x =? 0 then 0 else i) + weight (i + 1) r
  end.

(** Every cell of [l] is in [0, b). *)
Definition bounded (b : Z) (l : list Z) : Prop := Forall (fun x => 0 <= x < b) l.

(** The offset [p] is none of the cells of the line [(base, d, n)]. *)
Definition off_line (base d : Z) (n : nat) (p : Z) : Prop :=
  forall k : nat, (k < n)%nat -> p <> base + Z.of_nat k * d.

(** The score after the merges whose cursor exponents are [es], in order:
    each adds [1 << e], in [unsigned int]. *)
Definition add_points (p : Z) (es : list Z) : Z :=
  fold_left (fun p e => u32 (p + 2 ^ e)) es p.

(** The third branch of [body] is the one taken for the cell [x] under [it]
    and the cell [c] under [top]. *)
Definition merges (x c : Z) : bool :=
  negb (x =? 0) && negb (c =? 0) && (x =? c).

(** A recorded merge raised a tile below [b] by one exponent. *)
Definition merge_ok (b : Z) (m : merge_event) : Prop :=
  0 < cursor_before m < b /\ cursor_after m = cursor_before m + 1.

(** One, when the flag was raised between [before] and [after]. *)
Definition fresh (before after : bool) : Z :=
  if after && negb before then 1 else 0.

(** What the pass leaves of the line [l]: the final state of its abstract
    run, for the flag [m] at entry. *)
Definition lpass (l : list Z) (m : bool) : lstate := arun (lstart l m) (tl l).

(** *** Engines used as concrete inputs *)

(** A 2x2 board with two equal tiles side by side in its first row. *)
Definition pair_board : Grid :=
  {| prng_ := 1; empty_cells_count_ := 2; score_ := 0;
     state_ := State.running; grid_ := [1; 1; 0; 0] |}.

(** A full 2x2 board. *)
Definition full_board : Grid :=
  {| prng_ := 1; empty_cells_count_ := 0; score_ := 12;
     state_ := State.running; grid_ := [1; 2; 2; 1] |}.

(** [full_board] after one more [move]: the engine reports [ended]. *)
Definition ended_board : Grid :=
  {| prng_ := 1; empty_cells_count_ := 0; score_ := 12;
     state_ := State.ended; grid_ := [1; 2; 2; 1] |}.

(** A 3x3 board whose first row holds the tiles 4, 4 and 128. *)
Definition row_board : Grid :=
  {| prng_ := 1; empty_cells_count_ := 6; score_ := 0;
     state_ := State.running; grid_ := [2; 2; 7; 0; 0; 0; 0; 0; 0] |}.

(** The engine with its status set to [ended], as the first branch of [move]
    leaves it. *)
Definition end_game (g : Grid) : Grid :=
  {| prng_ := prng_ g; empty_cells_count_ := empty_cells_count_ g;
     score_ := score_ g; state_ := State.ended; grid_ := grid_ g |}.

(** *** Operations and reachable engines *)

(** The two operations that change an engine once it is built. *)
Inductive op : Set := Move (d : direction.t) | Reset.

Definition apply_op (size : nat) (o : op) (g : Grid) : option Grid :=
  match o with
  | Move d => move size d g
  | Reset => reset size g
  end.

(** The engines obtained from the constructor by [move] and [reset] calls,
    each made on a board whose exponents are at most 254.  (An exponent
    above 32 is formed only by a merge of two tiles of exponent 32 or more,
    where the source shifts [1] by at least the width of [int].) *)
Inductive reachable (size : nat) : Grid -> Prop :=
| reach_make seed g :
    make size seed = Some g -> reachable size g
| reach_op o g g' :
    reachable size g -> bounded 255 (grid_ g) ->
    apply_op size o g = Some g' -> reachable size g'.

(** What [Grid<2>(1)] builds, and that engine after [move(left)]. *)
Definition pair_start : Grid :=
  {| prng_ := 1157628417; empty_cells_count_ := 3; score_ := 0;
     state_ := State.running; grid_ := [0; 1; 0; 0] |}.

Definition pair_moved : Grid :=
  {| prng_ := 269814307; empty_cells_count_ := 2; score_ := 0;
     state_ := State.running; grid_ := [1; 0; 0; 1] |}.

(** *** Notions used for the further properties *)

(** The value a cell displays: nothing when empty, [2 ^ v] for exponent
    [v]. *)
Definition tile_value (x : Z) : Z := if x =? 0 then 0 else 2 ^ x.

(** The sum of the displayed values of a board. *)
Fixpoint board_total (g : list Z) : Z :=
  match g with
  | [] => 0
  | x :: r => tile_value x + board_total r
  end.

(** A sequence of [move] and [reset] calls. *)
Fixpoint run (size : nat) (os : list op) (g : Grid) : option Grid :=
  match os with
  | [] => Some g
  | o :: os' =>
      match apply_op size o g with
      | Some g' => run size os' g'
      | None => None
      end
  end.

(** The direction that slides towards the opposite border. *)
Definition opposite (d : direction.t) : direction.t :=
  match d with
  | direction.up => direction.down
  | direction.down => direction.up
  | direction.left => direction.right
  | direction.right => direction.left
  end.

(** The engine [g] holding the board [b]. *)
Definition with_board (g : Grid) (b : list Z) : Grid :=
  {| prng_ := prng_ g; empty_cells_count_ := empty_cells_count_ g;
     score_ := score_ g; state_ := state_ g; grid_ := b |}.

(** No two neighbours of the list are equal. *)
Fixpoint no_pair (l : list Z) : bool :=
  match l with
  | [] => true
  | a :: r =>
      match r with
      | [] => true
      | b :: _ => negb (a =? b) && no_pair r
      end
  end.

(** A line in which nothing can move: its tiles are packed against the
    leading edge and no two neighbouring tiles are equal. *)
Definition settled (l : list Z) : Prop :=
  l = pad (length l) (tiles l) /\ no_pair (tiles l) = true.

(** ** [TUI::benchmark]

    The loop of [benchmark] as far as the engine is concerned: a second
    generator [rand], seeded with 1, picks the directions; [count] is an
    [unsigned long long].  Drawing writes to the screen only and is left
    out; the loop runs while the clock reads less than a second, which is a
    number of iterations [n] here. *)

(** [static_cast<direction>(n)] for the values [rand() % 4] takes. *)
Definition direction_of (n : Z) : direction.t :=
  if n =? 0 then direction.up
  else if n =? 1 then direction.down
  else if n =? 2 then direction.left
  else direction.right.

Record bench : Type := mkBench {
  b_grid : Grid;
  b_rand : Xorshift.t;
  b_count : Z
}.

(** One iteration: [grid_.move(...)], [count++], and [grid_.reset()] when
    the engine reports [ended]. *)
Definition bench_body (size : nat) (b : bench) : option bench :=
  let (r, rand') := Xorshift.next (b_rand b) in
  match move size (direction_of (r mod 4)) (b_grid b) with
  | None => None
  | Some g1 =>
      let count := (b_count b + 1) mod 2 ^ 64 in
      match state g1 with
      | State.ended =>
          match reset size g1 with
          | Some g2 => Some {| b_grid := g2; b_rand := rand'; b_count := count |}
          | None => None
          end
      | State.running =>
          Some {| b_grid := g1; b_rand := rand'; b_count := count |}
      end
  end.

Fixpoint bench_loop (size : nat) (n : nat) (b : bench) : option bench :=
  match n with
  | O => Some b
  | S n' =>
      match bench_body size b with
      | Some b' => bench_loop size n' b'
      | None => None
      end
  end.

(** A board as [reset] leaves it: one tile of exponent 1 or 2, the other
    cells empty. *)
Definition single_tile (size : nat) (l : list Z) : Prop :=
  exists p v, (p < size * size)%nat /\ (v = 1 \/ v = 2)
              /\ l = upd p v (repeat 0 (size * size)).

(** ** [TUI::draw_skeleton]: the three border rows

    The lambdas [top], [middle] and [bottom] fill a
    [std::array<cchar_t, gameboard_dims.width>] through an iterator; they
    differ in the three characters they use.  [n] is [grid_complexity] and
    [w] is [cell_size.width], so that the array has [(w + 1) * n + 1]
    entries.  A write through an iterator that is not inside the array has no
    defined behaviour and gives [None]. *)

Inductive glyph : Set :=
| blank (* the value-initialised [cchar_t] *)
| ULCORNER | URCORNER | LLCORNER | LRCORNER
| HLINE | TTEE | BTEE | LTEE | RTEE | PLUS.

Fixpoint set_glyph (i : nat) (c : glyph) (a : list glyph) {struct a}
  : list glyph :=
  match a with
  | [] => []
  | x :: r => match i with O => c :: r | S i' => x :: set_glyph i' c r end
  end.

(** [*it = c] for the iterator at index [i]. *)
Definition store (a : list glyph) (i : nat) (c : glyph) : option (list glyph) :=
  if (i <? length a)%nat then Some (set_glyph i c a) else None.

(** [for (j = 0; j < cell_size.width; j++) { *it = HLINE; it++; }] *)
Fixpoint hlines (w : nat) (a : list glyph) (i : nat)
  : option (list glyph * nat) :=
  match w with
  | O => Some (a, i)
  | S w' =>
      match store a i HLINE with
      | Some a' => hlines w' a' (S i)
      | None => None
      end
  end.

(** The outer [for] over the cells, each followed by [*it = sep; it++]. *)
Fixpoint groups (n w : nat) (sep : glyph) (a : list glyph) (i : nat)
  : option (list glyph * nat) :=
  match n with
  | O => Some (a, i)
  | S n' =>
      match hlines w a i with
      | Some (a1, i1) =>
          match store a1 i1 sep with
          | Some a2 => groups n' w sep a2 (S i1)
          | None => None
          end
      | None => None
      end
  end.

(** One lambda: the array, the first character, the groups, and
    [array.back() = last].  The result is the array and the final position
    of the iterator. *)
Definition border_row (n w : nat) (first sep last : glyph)
  : option (list glyph * nat) :=
  let a := repeat blank ((w + 1) * n + 1) in
  match store a 0 first with
  | Some a1 =>
      match groups n w sep a1 1 with
      | Some (a2, i) =>
          match store a2 (length a2 - 1) last with
          | Some a3 => Some (a3, i)
          | None => None
          end
      | None => None
      end
  | None => None
  end.

Definition top_row (n w : nat) := border_row n w ULCORNER TTEE URCORNER.
Definition middle_row (n w : nat) := border_row n w LTEE PLUS RTEE.
Definition bottom_row (n w : nat) := border_row n w LLCORNER BTEE LRCORNER.

(** [k] cells of [w] lines, each followed by [sep]. *)
Definition cell_groups (k w : nat) (sep : glyph) : list glyph :=
  concat (repeat (repeat HLINE w ++ [sep]) k).

(** The board with rows and columns exchanged. *)
Definition transpose (size : nat) (g : list Z) : list Z :=
  map (fun p => nth ((p mod size) * size + p / size) g 0) (seq 0 (size * size)).

(** * Properties *)

Example make_4_seed_1 :
  option_map data (make 4 1) = Some [0;1;0;0; 0;0;0;0; 0;0;0;0; 0;0;0;0].
Proof. vm_compute. reflexivity. Qed.

(** ** Fixed-width arithmetic *)

Lemma u16_small x : 0 <= x < 2 ^ 16 -> u16 x = x.
Proof. intro H. unfold u16. apply Z.mod_small. exact H. Qed.

Lemma u8_small x : 0 <= x < 2 ^ 8 -> u8 x = x.
Proof. intro H. unfold u8. apply Z.mod_small. exact H. Qed.

Lemma u32_small x : 0 <= x < 2 ^ 32 -> u32 x = x.
Proof. intro H. unfold u32. apply Z.mod_small. exact H. Qed.

Lemma u32_range x : 0 <= u32 x < 2 ^ 32.
Proof. unfold u32. apply Z.mod_pos_bound. reflexivity. Qed.

Lemma lxor_range n a b :
  0 < n -> 0 <= a < 2 ^ n -> 0 <= b < 2 ^ n -> 0 <= Z.lxor a b < 2 ^ n.
Proof.
  intros Hn Ha Hb.
  assert (Hnn : 0 <= Z.lxor a b) by (apply Z.lxor_nonneg; lia).
  split; [exact Hnn|].
  destruct (Z.eq_dec (Z.lxor a b) 0) as [E|E].
  - rewrite E. apply Z.pow_pos_nonneg; lia.
  - apply Z.log2_lt_pow2; [lia|].
    pose proof (Z.log2_lxor a b (proj1 Ha) (proj1 Hb)) as Hl.
    assert (La : Z.log2 a < n).
    { destruct (Z.eq_dec a 0) as [->|]; [simpl; lia|apply Z.log2_lt_pow2; lia]. }
    assert (Lb : Z.log2 b < n).
    { destruct (Z.eq_dec b 0) as [->|]; [simpl; lia|apply Z.log2_lt_pow2; lia]. }
    lia.
Qed.

(** ** The generator *)

Lemma shiftr_range a k : 0 <= k -> 0 <= a < 2 ^ 32 -> 0 <= Z.shiftr a k < 2 ^ 32.
Proof.
  intros Hk Ha. rewrite Z.shiftr_div_pow2 by exact Hk.
  assert (0 < 2 ^ k) by (apply Z.pow_pos_nonneg; lia).
  split.
  - apply Z.div_pos; lia.
  - apply Z.le_lt_trans with a; [|lia].
    apply Z.div_le_upper_bound; [lia|]. nia.
Qed.

Lemma land_lxor_distr a b m :
  Z.land (Z.lxor a b) m = Z.lxor (Z.land a m) (Z.land b m).
Proof.
  apply Z.bits_inj'. intros i _.
  rewrite Z.land_spec, !Z.lxor_spec, !Z.land_spec.
  destruct (Z.testbit a i), (Z.testbit b i), (Z.testbit m i); reflexivity.
Qed.

Lemma masked_stage x k :
  0 <= x < 2 ^ 32 ->
  Z.land (Z.lxor x (Z.shiftl x k)) XorshiftSpec.mask32
  = Z.lxor x (u32 (Z.shiftl x k)).
Proof.
  intro Hx. unfold XorshiftSpec.mask32, u32.
  rewrite land_lxor_distr, !Z.land_ones by lia.
  rewrite (Z.mod_small x) by exact Hx. reflexivity.
Qed.

Lemma next_range s :
  0 <= s < 2 ^ 32 -> 0 <= fst (Xorshift.next s) < 2 ^ 32.
Proof.
  intro Hs. unfold Xorshift.next. cbv zeta. cbn [fst].
  assert (H1 : 0 <= Z.lxor s (u32 (Z.shiftl s 13)) < 2 ^ 32)
    by (apply lxor_range; [lia|exact Hs|apply u32_range]).
  assert (H2 : 0 <= Z.lxor (Z.lxor s (u32 (Z.shiftl s 13)))
                      (Z.shiftr (Z.lxor s (u32 (Z.shiftl s 13))) 17) < 2 ^ 32)
    by (apply lxor_range; [lia|exact H1|apply shiftr_range; [lia|exact H1]]).
  apply lxor_range; [lia|exact H2|apply u32_range].
Qed.

Lemma next_state s : snd (Xorshift.next s) = fst (Xorshift.next s).
Proof. reflexivity. Qed.

Lemma next_is_step s :
  0 <= s < 2 ^ 32 -> fst (Xorshift.next s) = XorshiftSpec.step 13 17 15 s.
Proof.
  intro Hs. unfold Xorshift.next, XorshiftSpec.step. cbv zeta. cbn [fst].
  rewrite (masked_stage s 13) by exact Hs.
  assert (H1 : 0 <= Z.lxor s (u32 (Z.shiftl s 13)) < 2 ^ 32)
    by (apply lxor_range; [lia|exact Hs|apply u32_range]).
  rewrite masked_stage; [reflexivity|].
  apply lxor_range; [lia|exact H1|apply shiftr_range; [lia|exact H1]].
Qed.


(** ** Spawning *)

Lemma spawn_value_cases r :
  spawn_value r = if r / 4 =? 0 then 2 else 1.
Proof. unfold spawn_value. destruct (r / 4 =? 0); reflexivity. Qed.

Lemma spawn_value_tile r : spawn_value r = 1 \/ spawn_value r = 2.
Proof. rewrite spawn_value_cases. destruct (r / 4 =? 0); auto. Qed.

Lemma spawn_value_high r : 4 <= r -> spawn_value r = 1.
Proof.
  intro H. rewrite spawn_value_cases.
  assert (1 <= r / 4) by (apply Z.div_le_lower_bound; lia).
  destruct (Z.eqb_spec (r / 4) 0); [lia|reflexivity].
Qed.

Lemma count_four_S n :
  count_four (S n)
  = (count_four n + if (spawn_value (Z.of_nat n) =? 2)%Z then 1 else 0)%nat.
Proof.
  unfold count_four. rewrite seq_S, filter_app, length_app. cbn [filter Nat.add].
  destruct (spawn_value (Z.of_nat n) =? 2); reflexivity.
Qed.


(** ** Reading and writing cells *)

Lemma length_upd n v l : length (upd n v l) = length l.
Proof.
  revert n. induction l as [|x r IH]; intro n; [reflexivity|].
  destruct n; cbn; [reflexivity|]. now rewrite IH.
Qed.

Lemma nth_upd_same n v l d : (n < length l)%nat -> nth n (upd n v l) d = v.
Proof.
  revert n. induction l as [|x r IH]; intros n H; cbn in H; [lia|].
  destruct n; cbn; [reflexivity|]. apply IH. lia.
Qed.

Lemma nth_upd_other n m v l d : n <> m -> nth m (upd n v l) d = nth m l d.
Proof.
  revert n m. induction l as [|x r IH]; intros n m H; [reflexivity|].
  destruct n, m; cbn; try reflexivity; try congruence.
  apply IH. congruence.
Qed.

Lemma zeros_bounds l : 0 <= zeros l <= Z.of_nat (length l).
Proof.
  induction l as [|x r IH]; cbn [zeros length]; [lia|].
  destruct (x =? 0); lia.
Qed.

Lemma zeros_upd n v l :
  (n < length l)%nat ->
  zeros (upd n v l)
  = zeros l - (if nth n l 0 =? 0 then 1 else 0) + (if v =? 0 then 1 else 0).
Proof.
  revert n. induction l as [|x r IH]; intros n H; cbn in H; [lia|].
  destruct n; cbn [upd zeros nth].
  - lia.
  - rewrite IH by lia. lia.
Qed.

Lemma zeros_repeat n : zeros (repeat 0 n) = Z.of_nat n.
Proof.
  induction n as [|n IH]; [reflexivity|].
  cbn [repeat zeros]. rewrite IH, Z.eqb_refl. lia.
Qed.

Lemma length_wr g p v : length (wr g p v) = length g.
Proof. unfold wr. destruct (p <? 0); [reflexivity|apply length_upd]. Qed.

Lemma rd_wr_same g p v : 0 <= p < Z.of_nat (length g) -> rd (wr g p v) p = v.
Proof.
  intro H. unfold rd, wr. destruct (Z.ltb_spec p 0); [lia|].
  apply nth_upd_same. lia.
Qed.

Lemma rd_wr_other g p q v : p <> q -> rd (wr g p v) q = rd g q.
Proof.
  intro H. unfold rd, wr.
  destruct (Z.ltb_spec q 0); [reflexivity|].
  destruct (Z.ltb_spec p 0); [reflexivity|].
  apply nth_upd_other. lia.
Qed.

Lemma zeros_wr g p v :
  0 <= p < Z.of_nat (length g) ->
  zeros (wr g p v)
  = zeros g - (if rd g p =? 0 then 1 else 0) + (if v =? 0 then 1 else 0).
Proof.
  intro H. unfold rd, wr. destruct (Z.ltb_spec p 0); [lia|].
  apply zeros_upd. lia.
Qed.

Lemma zeros_iter_swap g p q :
  0 <= p < Z.of_nat (length g) -> 0 <= q < Z.of_nat (length g) ->
  zeros (iter_swap g p q) = zeros g.
Proof.
  intros Hp Hq. unfold iter_swap.
  rewrite zeros_wr by (rewrite length_wr; exact Hq).
  rewrite zeros_wr by exact Hp.
  destruct (Z.eq_dec p q) as [->|Hne].
  - rewrite rd_wr_same by exact Hq. lia.
  - rewrite rd_wr_other by exact Hne. lia.
Qed.

(** ** [spawn_new_number] finds its cell *)

Lemma spawn_scan_finds prng loc g :
  0 <= loc < zeros g -> loc < 2 ^ 16 ->
  exists p,
    (p < length g)%nat /\ nth p g 0 = 0 /\ zeros (firstn p g) = loc /\
    spawn_scan prng loc g
    = Some (upd p (spawn_value (fst (Xorshift.next prng))) g,
            snd (Xorshift.next prng)).
Proof.
  revert loc. induction g as [|x r IH]; intros loc Hl Hb; cbn [zeros] in Hl; [lia|].
  cbn [spawn_scan length nth firstn zeros upd].
  destruct (Z.eqb_spec x 0) as [Hx|Hx].
  - destruct (Z.eqb_spec loc 0) as [Hloc|Hloc]; cbn [andb].
    + exists 0%nat. cbn [length nth firstn zeros upd].
      destruct (Xorshift.next prng) as [v p']. cbn [fst snd].
      repeat split; try lia.
    + rewrite u16_small by lia.
      destruct (IH (loc - 1)) as (p & Hp & Hz & Hc & Hs); [lia|lia|].
      exists (S p). cbn [length nth firstn zeros upd]. rewrite Hs.
      destruct (Z.eqb_spec x 0); [|contradiction].
      repeat split; try lia; try assumption.
  - rewrite andb_false_r.
    destruct (IH loc) as (p & Hp & Hz & Hc & Hs); [lia|lia|].
    exists (S p). cbn [length nth firstn zeros upd]. rewrite Hs.
    destruct (Z.eqb_spec x 0); [contradiction|].
    repeat split; try lia; try assumption.
Qed.

(** What a defined spawn does to an engine: one zero cell, the [loc]-th in
    board order for the first generator output reduced modulo the counter,
    receives exponent 1 or 2; the counter drops by one; the generator is
    called twice; score and status are kept. *)
Lemma spawn_spec g :
  0 < empty_cells_count_ g < 2 ^ 16 -> counted g ->
  exists g' p v,
    spawn_new_number g = Some g' /\
    (p < length (grid_ g))%nat /\ nth p (grid_ g) 0 = 0 /\
    (v = 1 \/ v = 2) /\
    grid_ g' = upd p v (grid_ g) /\
    empty_cells_count_ g' = empty_cells_count_ g - 1 /\
    score_ g' = score_ g /\ state_ g' = state_ g /\
    prng_ g' = snd (Xorshift.next (snd (Xorshift.next (prng_ g)))).
Proof.
  intros He Hc. unfold spawn_new_number.
  destruct (Z.eqb_spec (empty_cells_count_ g) 0) as [E|_]; [lia|].
  destruct (Xorshift.next (prng_ g)) as [r p1] eqn:N1. cbn [snd].
  pose proof (Z.mod_pos_bound r (empty_cells_count_ g) (proj1 He)) as Hm.
  rewrite u16_small by lia.
  destruct (spawn_scan_finds p1 (r mod empty_cells_count_ g) (grid_ g))
    as (p & Hp & Hz & _ & Hs); [unfold counted in Hc; lia|lia|].
  rewrite Hs.
  eexists _, p, _. split; [reflexivity|]. cbn.
  repeat split; try assumption.
  - apply spawn_value_tile.
  - apply u16_small. lia.
Qed.

(** ** Lines seen through [pick] *)

Lemma length_pick g base d n : length (pick g base d n) = n.
Proof. unfold pick. now rewrite length_map, length_seq. Qed.

Lemma nth_pick g base d n k :
  (k < n)%nat -> nth k (pick g base d n) 0 = rd g (base + Z.of_nat k * d).
Proof.
  intro H. unfold pick.
  rewrite (nth_indep _ 0 (rd g (base + Z.of_nat 0 * d)))
    by (now rewrite length_map, length_seq).
  rewrite (map_nth (fun k => rd g (base + Z.of_nat k * d))).
  now rewrite seq_nth.
Qed.

Lemma pick_ext g g' base d n :
  (forall k, (k < n)%nat ->
             rd g' (base + Z.of_nat k * d) = rd g (base + Z.of_nat k * d)) ->
  pick g' base d n = pick g base d n.
Proof.
  intro H. unfold pick. apply map_ext_in. intros k Hk.
  apply in_seq in Hk. apply H. lia.
Qed.

Lemma line_in_inj len base d n a b :
  line_in len base d n ->
  base + Z.of_nat a * d = base + Z.of_nat b * d -> a = b.
Proof.
  intros [Hd _] E.
  assert (E' : (Z.of_nat a - Z.of_nat b) * d = 0) by lia.
  apply Z.mul_eq_0 in E'. lia.
Qed.

Lemma pick_wr_on len g base d n k v :
  line_in len base d n -> length g = len -> (k < n)%nat ->
  pick (wr g (base + Z.of_nat k * d) v) base d n = upd k v (pick g base d n).
Proof.
  intros L Hg Hk.
  apply (nth_ext _ _ 0 0).
  - now rewrite length_upd, !length_pick.
  - intros m Hm. rewrite length_pick in Hm.
    rewrite nth_pick by exact Hm.
    destruct (Nat.eq_dec k m) as [<-|Hne].
    + rewrite nth_upd_same by (now rewrite length_pick).
      apply rd_wr_same. rewrite Hg. apply (proj2 L). exact Hk.
    + rewrite nth_upd_other by exact Hne.
      rewrite nth_pick by exact Hm.
      apply rd_wr_other. intro E. apply Hne.
      apply (line_in_inj _ _ _ _ _ _ L E).
Qed.

Lemma rd_pick len g base d n k :
  line_in len base d n -> (k < n)%nat ->
  rd g (base + Z.of_nat k * d) = nth k (pick g base d n) 0.
Proof. intros _ Hk. symmetry. now apply nth_pick. Qed.

(** ** The shape of a line during the pass *)

Lemma repeat_snoc (k : nat) (r : list Z) :
  repeat 0 k ++ 0 :: r = 0 :: repeat 0 k ++ r.
Proof. induction k as [|k IH]; [reflexivity|]. cbn [repeat app]. now rewrite IH. Qed.

Lemma upd_middle (a : list Z) v w b :
  upd (length a) w (a ++ v :: b) = a ++ w :: b.
Proof. induction a as [|x a IH]; [reflexivity|]. cbn. now rewrite IH. Qed.

Lemma nth_it (d : list Z) c k x r :
  nth (length d + 1 + k) (d ++ c :: repeat 0 k ++ x :: r) 0 = x.
Proof.
  replace (d ++ c :: repeat 0 k ++ x :: r)
    with ((d ++ c :: repeat 0 k) ++ x :: r)
    by (now rewrite <- app_assoc).
  replace (length d + 1 + k)%nat with (length (d ++ c :: repeat 0 k))
    by (rewrite length_app; cbn [length]; rewrite repeat_length; lia).
  apply nth_middle.
Qed.

Lemma upd_it (d : list Z) c k x v r :
  upd (length d + 1 + k) v (d ++ c :: repeat 0 k ++ x :: r)
  = d ++ c :: repeat 0 k ++ v :: r.
Proof.
  replace (d ++ c :: repeat 0 k ++ x :: r)
    with ((d ++ c :: repeat 0 k) ++ x :: r)
    by (now rewrite <- app_assoc).
  replace (length d + 1 + k)%nat with (length (d ++ c :: repeat 0 k))
    by (rewrite length_app; cbn [length]; rewrite repeat_length; lia).
  rewrite upd_middle. now rewrite <- app_assoc.
Qed.

Lemma upd_next (d : list Z) c y v r :
  upd (length d + 1) v (d ++ c :: y :: r) = d ++ c :: v :: r.
Proof.
  replace (d ++ c :: y :: r) with ((d ++ [c]) ++ y :: r)
    by (now rewrite <- app_assoc).
  replace (length d + 1)%nat with (length (d ++ [c]))
    by (rewrite length_app; cbn [length]; lia).
  rewrite upd_middle. now rewrite <- app_assoc.
Qed.

(** ** One step of the inner loop along a line *)

Lemma tracks_reads len base d n f s x r :
  line_in len base d n -> tracks len base d n f s (x :: r) ->
  rd (cells f) (top f) = cur s /\ rd (cells f) (it f) = x /\
  (length (done s) + 1 + gap s < n)%nat.
Proof.
  intros L [Hl Hc Ht Hi Hn Hm]. cbn [length] in Hn.
  assert (Hj : (length (done s) + 1 + gap s < n)%nat) by lia.
  repeat split; [| |exact Hj].
  - rewrite Ht, (rd_pick len _ _ _ n) by (exact L || lia).
    rewrite Hc. unfold rep. apply nth_middle.
  - rewrite Hi, (rd_pick len _ _ _ n) by (exact L || lia).
    rewrite Hc. unfold rep. apply nth_it.
Qed.

Lemma step_tracks len base d n f s x r :
  line_in len base d n -> tracks len base d n f s (x :: r) ->
  tracks len base d n (advance d (body d f)) (astep s x) r /\
  (forall p, off_line base d n p ->
             rd (cells (advance d (body d f))) p = rd (cells f) p).
Proof.
  intros L T.
  destruct (tracks_reads _ _ _ _ _ _ _ _ L T) as (Rt & Ri & Hj).
  destruct T as [Hl Hc Ht Hi Hn Hm]. cbn [length] in Hn.
  assert (Htop : top f + d = base + Z.of_nat (length (done s) + 1) * d) by lia.
  unfold body, astep. cbv zeta. rewrite Ri, Rt.
  destruct (Z.eqb_spec x 0) as [Hx|Hx].
  { split; [|reflexivity].
    constructor; cbn [cells top it modified advance done cur gap changed length].
    - exact Hl.
    - rewrite Hc. unfold rep. cbn [done cur gap]. rewrite Hx.
      cbn [repeat]. now rewrite repeat_snoc.
    - exact Ht.
    - rewrite Hi. lia.
    - lia.
    - exact Hm. }
  destruct (Z.eqb_spec (cur s) 0) as [Hz|Hz].
  { unfold iter_swap. rewrite Ri, Rt. split.
    - constructor; cbn [cells top it modified advance done cur gap changed length].
      + now rewrite !length_wr.
      + rewrite Ht, (pick_wr_on len) by (rewrite ?length_wr; (exact L || lia)).
        rewrite Hi, (pick_wr_on len) by (rewrite ?length_wr; (exact L || lia)).
        rewrite Hc. unfold rep. cbn [done cur gap].
        rewrite upd_it, upd_middle. cbn [repeat]. rewrite Hz.
        now rewrite repeat_snoc.
      + exact Ht.
      + rewrite Hi. lia.
      + lia.
      + reflexivity.
    - intros p Hp. cbn [cells advance].
      rewrite !rd_wr_other; [reflexivity| |].
      + rewrite Hi. intro E. apply (Hp _ Hj). now symmetry.
      + rewrite Ht. intro E. apply (Hp (length (done s))); [lia|now symmetry]. }
  assert (Hne : it f <> top f).
  { rewrite Hi, Ht. intro E. apply (line_in_inj _ _ _ _ _ _ L) in E. lia. }
  destruct (Z.eqb_spec x (cur s)) as [He|He].
  { rewrite rd_wr_other by exact Hne. rewrite Rt. split.
    - constructor; cbn [cells top it modified advance done cur gap changed length].
      + now rewrite !length_wr.
      + rewrite Ht, (pick_wr_on len) by (rewrite ?length_wr; (exact L || lia)).
        rewrite Hi, (pick_wr_on len) by (rewrite ?length_wr; (exact L || lia)).
        rewrite Hc. unfold rep. cbn [done cur gap].
        rewrite upd_it, upd_middle, repeat_snoc, <- app_assoc. reflexivity.
      + rewrite length_app. cbn [length]. exact Htop.
      + rewrite length_app. cbn [length]. rewrite Hi. lia.
      + rewrite length_app. cbn [length]. lia.
      + reflexivity.
    - intros p Hp. cbn [cells advance].
      rewrite !rd_wr_other; [reflexivity| |].
      + rewrite Hi. intro E. apply (Hp _ Hj). now symmetry.
      + rewrite Ht. intro E. apply (Hp (length (done s))); [lia|now symmetry]. }
  destruct (gap s) as [|k] eqn:Hg.
  { assert (E : top f + d = it f) by (rewrite Hi, Htop; f_equal; f_equal; lia).
    apply Z.eqb_eq in E. rewrite E. split; [|reflexivity].
    constructor; cbn [cells top it modified advance done cur gap changed length].
    - exact Hl.
    - rewrite Hc. unfold rep. rewrite Hg. cbn [done cur gap repeat app].
      now rewrite <- app_assoc.
    - rewrite length_app. cbn [length]. exact Htop.
    - rewrite length_app. cbn [length]. rewrite Hi. lia.
    - rewrite length_app. cbn [length]. lia.
    - cbn. rewrite Hm. now rewrite orb_false_r. }
  assert (E : top f + d <> it f).
  { rewrite Hi, Htop. intro E. apply (line_in_inj _ _ _ _ _ _ L) in E. lia. }
  apply Z.eqb_neq in E. rewrite E. apply Z.eqb_neq in E.
  assert (R0 : rd (cells f) (top f + d) = 0).
  { rewrite Htop, (rd_pick len _ _ _ n) by (exact L || lia).
    rewrite Hc. unfold rep. rewrite Hg. cbn [repeat app].
    replace (done s ++ cur s :: 0 :: repeat 0 k ++ x :: r)
      with ((done s ++ [cur s]) ++ 0 :: repeat 0 k ++ x :: r)
      by (now rewrite <- app_assoc).
    replace (length (done s) + 1)%nat with (length (done s ++ [cur s]))
      by (rewrite length_app; cbn [length]; lia).
    apply nth_middle. }
  unfold iter_swap. rewrite Ri, R0. split.
  - constructor; cbn [cells top it modified advance done cur gap changed length].
    + now rewrite !length_wr.
    + rewrite Htop, (pick_wr_on len) by (rewrite ?length_wr; (exact L || lia)).
      rewrite Hi, (pick_wr_on len) by (rewrite ?length_wr; (exact L || lia)).
      rewrite Hc. unfold rep. rewrite Hg. cbn [done cur gap].
      rewrite upd_it. cbn [repeat app]. rewrite upd_next, repeat_snoc.
      now rewrite <- app_assoc.
    + rewrite length_app. cbn [length]. exact Htop.
    + rewrite length_app. cbn [length]. rewrite Hi. lia.
    + rewrite length_app. cbn [length]. lia.
    + cbn. now rewrite orb_true_r.
  - intros p Hp. cbn [cells advance].
    rewrite !rd_wr_other; [reflexivity| |].
    + rewrite Hi. intro E'. apply (Hp _ Hj). now symmetry.
    + rewrite Htop. intro E'. apply (Hp (length (done s) + 1)%nat); [lia|now symmetry].
Qed.

Lemma tracks_in_range len base d n f s x r :
  line_in len base d n -> tracks len base d n f s (x :: r) ->
  0 <= top f < Z.of_nat len /\ 0 <= it f < Z.of_nat len /\
  0 <= top f + d < Z.of_nat len /\ it f <> top f.
Proof.
  intros L T.
  destruct (tracks_reads _ _ _ _ _ _ _ _ L T) as (_ & _ & Hj).
  destruct T as [Hl Hc Ht Hi Hn Hm].
  assert (Htop : top f + d = base + Z.of_nat (length (done s) + 1) * d) by lia.
  rewrite Htop, Ht, Hi.
  repeat split; try (apply (proj2 L); lia).
  intro E. apply (line_in_inj _ _ _ _ _ _ L) in E. lia.
Qed.

(** The counter follows the zero cells through one step. *)
Lemma step_counted len base d n f s x r :
  line_in len base d n -> tracks len base d n f s (x :: r) ->
  Z.of_nat len < 2 ^ 16 -> 0 <= cur s < 255 ->
  empties f = zeros (cells f) ->
  empties (advance d (body d f)) = zeros (cells (advance d (body d f)))
  /\ empties f <= empties (advance d (body d f)).
Proof.
  intros L T Hlen Hcur Hcnt.
  destruct (tracks_reads _ _ _ _ _ _ _ _ L T) as (Rt & Ri & _).
  destruct (tracks_in_range _ _ _ _ _ _ _ _ L T) as (It & Ii & It' & Hne).
  pose proof (tr_length _ _ _ _ _ _ _ T) as Hl. rewrite <- Hl in It, Ii, It'.
  unfold body. cbv zeta. rewrite Ri, Rt.
  destruct (Z.eqb_spec x 0) as [Hx|Hx];
    [cbn [cells empties advance]; split; [exact Hcnt|lia]|].
  destruct (Z.eqb_spec (cur s) 0) as [Hz|Hz].
  { cbn [cells empties advance]. rewrite zeros_iter_swap by assumption.
    split; [exact Hcnt|lia]. }
  destruct (Z.eqb_spec x (cur s)) as [He|He].
  { cbn [cells empties advance].
    rewrite rd_wr_other by exact Hne. rewrite Rt.
    rewrite zeros_wr by (now rewrite length_wr).
    rewrite rd_wr_other by exact Hne. rewrite Rt.
    pose proof (zeros_bounds (wr (cells f) (it f) 0)) as Hb.
    rewrite length_wr in Hb.
    rewrite zeros_wr in * by exact Ii. rewrite Ri in *.
    rewrite u8_small by (unfold is_u8; lia).
    destruct (Z.eqb_spec x 0); [contradiction|].
    destruct (Z.eqb_spec (cur s) 0); [contradiction|].
    destruct (Z.eqb_spec (cur s + 1) 0); [lia|].
    change (0 =? 0) with true in *. cbv iota in *.
    rewrite u16_small; lia. }
  destruct (top f + d =? it f); cbn [cells empties advance];
    [split; [exact Hcnt|lia]|].
  rewrite zeros_iter_swap by assumption. split; [exact Hcnt|lia].
Qed.

(** The score and the recorded merge of one step. *)
Lemma step_merge len base d n f s x r :
  line_in len base d n -> tracks len base d n f s (x :: r) ->
  body_merge d f
  = (if merges x (cur s)
     then Some {| cursor_before := cur s; cursor_after := u8 (cur s + 1) |}
     else None) /\
  points (advance d (body d f))
  = add_points (points f) (map cursor_before (opt_list (body_merge d f))).
Proof.
  intros L T.
  destruct (tracks_reads _ _ _ _ _ _ _ _ L T) as (Rt & Ri & _).
  destruct (tracks_in_range _ _ _ _ _ _ _ _ L T) as (It & Ii & It' & Hne).
  pose proof (tr_length _ _ _ _ _ _ _ T) as Hl. rewrite <- Hl in It, Ii, It'.
  unfold body_merge, body, merges. cbv zeta. rewrite Ri, Rt.
  destruct (Z.eqb_spec x 0) as [Hx|Hx]; [split; reflexivity|].
  destruct (Z.eqb_spec (cur s) 0) as [Hz|Hz]; [split; reflexivity|].
  destruct (Z.eqb_spec x (cur s)) as [He|He]; cbn [negb andb].
  - cbn [cells points advance opt_list map cursor_before add_points fold_left].
    rewrite (rd_wr_other (cells f) (it f) (top f) 0 Hne), Rt.
    rewrite rd_wr_same by (now rewrite length_wr).
    now rewrite Z.shiftl_1_l.
  - split; [reflexivity|].
    destruct (top f + d =? it f); reflexivity.
Qed.

Lemma astep_cur b s x :
  0 < b -> 0 <= cur s < b -> 0 <= x < b -> 0 <= cur (astep s x) < b.
Proof.
  intros Hb Hc Hx. unfold astep.
  destruct (x =? 0); [exact Hc|].
  destruct (cur s =? 0); [exact Hx|].
  destruct (x =? cur s); cbn [cur]; lia.
Qed.

Lemma add_points_app p a b :
  add_points p (a ++ b) = add_points (add_points p a) b.
Proof. unfold add_points. apply fold_left_app. Qed.

(** After a merge the cursor is one step further along the line, whatever
    the frame. *)
Lemma merge_advances_cursor d f m :
  body_merge d f = Some m -> top (body d f) = top f + d.
Proof.
  unfold body_merge, body. cbv zeta.
  destruct (rd (cells f) (it f) =? 0); [discriminate|].
  destruct (rd (cells f) (top f) =? 0); [discriminate|].
  destruct (rd (cells f) (it f) =? rd (cells f) (top f)); [|discriminate].
  reflexivity.
Qed.

(** ** The inner loop along a line *)

Lemma inner_spec len base d n (L : line_in len base d n) r :
  forall f s, tracks len base d n f s r ->
  tracks len base d n (inner d (length r) f) (arun s r) []
  /\ (forall p, off_line base d n p ->
                rd (cells (inner d (length r) f)) p = rd (cells f) p)
  /\ points (inner d (length r) f)
     = add_points (points f)
         (map cursor_before (inner_merges d (length r) f))
  /\ (forall b, 0 < b <= 255 -> 0 <= cur s < b -> bounded b r ->
        Forall (merge_ok b) (inner_merges d (length r) f)
        /\ (Z.of_nat len < 2 ^ 16 -> empties f = zeros (cells f) ->
            empties (inner d (length r) f)
            = zeros (cells (inner d (length r) f))
            /\ empties f <= empties (inner d (length r) f))).
Proof.
  induction r as [|x r IH]; intros f s T.
  - cbn [length inner inner_merges arun fold_left map add_points].
    split; [exact T|]. repeat split; auto; lia.
  - cbn [length inner inner_merges arun fold_left].
    destruct (step_tracks _ _ _ _ _ _ _ _ L T) as (T1 & O1).
    destruct (step_merge _ _ _ _ _ _ _ _ L T) as (M1 & P1).
    destruct (IH _ _ T1) as (T2 & O2 & P2 & V2).
    split; [exact T2|]. split; [|split].
    + intros p Hp. rewrite O2 by exact Hp. now apply O1.
    + rewrite P2, P1, map_app, add_points_app. reflexivity.
    + intros b Hb Hc Hr. inversion Hr as [|? ? Hx Hr']; subst.
      destruct (V2 b Hb (astep_cur b s x (proj1 Hb) Hc Hx) Hr') as (F2 & C2).
      split.
      * apply Forall_app. split; [|exact F2].
        rewrite M1. unfold merges.
        destruct (Z.eqb_spec x 0); [constructor|].
        destruct (Z.eqb_spec (cur s) 0); [constructor|].
        destruct (Z.eqb_spec x (cur s)); cbn [negb andb opt_list]; constructor;
          [|constructor].
        unfold merge_ok. cbn [cursor_before cursor_after].
        split; [lia|]. apply u8_small. lia.
      * intros Hlen Hcnt.
        destruct (step_counted _ _ _ _ _ _ _ _ L T Hlen ltac:(lia) Hcnt)
          as (C1 & G1).
        destruct (C2 Hlen C1) as (C3 & G3). split; [exact C3|lia].
Qed.

(** ** What the pass computes on a line *)

Lemma tiles_cons a l :
  tiles (a :: l) = if a =? 0 then tiles l else a :: tiles l.
Proof. unfold tiles. cbn [filter]. destruct (a =? 0); reflexivity. Qed.

Lemma tiles_app a b : tiles (a ++ b) = tiles a ++ tiles b.
Proof. unfold tiles. apply filter_app. Qed.

Lemma tiles_repeat k : tiles (repeat 0 k) = [].
Proof. induction k as [|k IH]; [reflexivity|]. cbn [repeat]. now rewrite tiles_cons. Qed.

Lemma tiles_nonzero l : Forall (fun x => x <> 0) l -> tiles l = l.
Proof.
  induction 1 as [|x l Hx _ IH]; [reflexivity|].
  rewrite tiles_cons, IH. destruct (Z.eqb_spec x 0); [contradiction|reflexivity].
Qed.

Lemma merge_tiles_cons2 a b l :
  merge_tiles (a :: b :: l)
  = if a =? b then (a + 1) :: merge_tiles l else a :: merge_tiles (b :: l).
Proof. reflexivity. Qed.

Lemma arun_tiles r :
  forall s, 0 <= cur s < 255 -> bounded 255 r ->
  Forall (fun x => x <> 0) (done s) ->
  done (arun s r) ++ tiles [cur (arun s r)]
  = done s ++ merge_tiles (tiles (cur s :: r))
  /\ Forall (fun x => x <> 0) (done (arun s r)).
Proof.
  induction r as [|x r IH]; intros s Hc Hr Hd.
  - cbn [arun fold_left]. split; [|exact Hd].
    rewrite tiles_cons. destruct (cur s =? 0); reflexivity.
  - inversion Hr as [|? ? Hx Hr']; subst.
    cbn [arun fold_left]. fold (arun (astep s x) r).
    assert (Hc' : 0 <= cur (astep s x) < 255) by (apply astep_cur; lia).
    assert (Hd' : Forall (fun y => y <> 0) (done (astep s x))).
    { unfold astep.
      destruct (Z.eqb_spec x 0); [exact Hd|].
      destruct (Z.eqb_spec (cur s) 0); [exact Hd|].
      destruct (Z.eqb_spec x (cur s)); cbn [done]; apply Forall_app; split;
        try exact Hd; constructor; try constructor; try assumption.
      rewrite u8_small by lia. lia. }
    destruct (IH _ Hc' Hr' Hd') as (E & F). split; [|exact F].
    rewrite E. clear E F IH. unfold astep.
    rewrite (tiles_cons (cur s)), (tiles_cons x).
    destruct (Z.eqb_spec x 0) as [Hx0|Hx0]; cbn [done cur].
    { now rewrite (tiles_cons (cur s)). }
    destruct (Z.eqb_spec (cur s) 0) as [Hz|Hz]; cbn [done cur].
    { now rewrite (tiles_cons x), (proj2 (Z.eqb_neq x 0) Hx0). }
    rewrite merge_tiles_cons2, (Z.eqb_sym (cur s) x).
    destruct (Z.eqb_spec x (cur s)) as [He|He]; cbn [done cur].
    + rewrite <- app_assoc, tiles_cons. cbn [app Z.eqb].
      rewrite u8_small by lia. reflexivity.
    + rewrite <- app_assoc, tiles_cons, (proj2 (Z.eqb_neq x 0) Hx0).
      reflexivity.
Qed.

Lemma rep_final s :
  Forall (fun x => x <> 0) (done s) ->
  rep s [] = pad (length (done s) + 1 + gap s) (done s ++ tiles [cur s])
  /\ tiles (rep s []) = done s ++ tiles [cur s].
Proof.
  intro Hd. unfold rep, pad. rewrite app_nil_r. split.
  - rewrite tiles_cons, length_app.
    destruct (Z.eqb_spec (cur s) 0) as [E|E]; cbn [tiles filter length].
    + rewrite E, app_nil_r.
      replace (length (done s) + 1 + gap s - (length (done s) + 0))%nat
        with (S (gap s)) by lia. reflexivity.
    + rewrite <- app_assoc. cbn [app].
      replace (length (done s) + 1 + gap s - (length (done s) + 1))%nat
        with (gap s) by lia. reflexivity.
  - rewrite tiles_app, tiles_nonzero by exact Hd.
    rewrite tiles_cons, (tiles_cons (cur s) []), tiles_repeat.
    reflexivity.
Qed.

Lemma merged_once_merge_tiles l :
  merged_once l (merge_tiles l)
  /\ forall a, merged_once (a :: l) (merge_tiles (a :: l)).
Proof.
  induction l as [|b l [IH1 IH2]].
  - split; [constructor|]. intro a. cbn. repeat constructor.
  - split; [apply IH2|]. intro a. rewrite merge_tiles_cons2.
    destruct (Z.eqb_spec a b) as [->|_].
    + apply mo_pair. exact IH1.
    + apply mo_keep. apply IH2.
Qed.

(** ** The flag [modified] is exact on a line *)

Lemma weight_app i a b :
  weight i (a ++ b) = weight i a + weight (i + Z.of_nat (length a)) b.
Proof.
  revert i. induction a as [|x a IH]; intro i; cbn [app weight length].
  - now rewrite Z.add_0_r.
  - rewrite IH. replace (i + 1 + Z.of_nat (length a))
      with (i + Z.of_nat (S (length a))) by lia. lia.
Qed.

Lemma weight_repeat i k : weight i (repeat 0 k) = 0.
Proof.
  revert i. induction k as [|k IH]; intro i; [reflexivity|].
  cbn [repeat weight]. rewrite IH. reflexivity.
Qed.

Lemma weight_rep s x r :
  weight 1 (rep s (x :: r))
  = weight 1 (done s)
    + (if cur s =? 0 then 0 else 1 + Z.of_nat (length (done s)))
    + (if x =? 0 then 0 else 2 + Z.of_nat (length (done s)) + Z.of_nat (gap s))
    + weight (3 + Z.of_nat (length (done s)) + Z.of_nat (gap s)) r.
Proof.
  unfold rep. rewrite weight_app. cbn [weight].
  rewrite weight_app, weight_repeat, repeat_length. cbn [weight].
  replace (1 + Z.of_nat (length (done s)) + 1 + Z.of_nat (gap s) + 1)
    with (3 + Z.of_nat (length (done s)) + Z.of_nat (gap s)) by lia.
  replace (1 + Z.of_nat (length (done s)) + 1 + Z.of_nat (gap s))
    with (2 + Z.of_nat (length (done s)) + Z.of_nat (gap s)) by lia.
  lia.
Qed.

Lemma weight_rep_nil s r :
  weight 1 (rep s r)
  = weight 1 (done s)
    + (if cur s =? 0 then 0 else 1 + Z.of_nat (length (done s)))
    + weight (2 + Z.of_nat (length (done s)) + Z.of_nat (gap s)) r.
Proof.
  unfold rep. rewrite weight_app. cbn [weight].
  rewrite weight_app, weight_repeat, repeat_length.
  replace (1 + Z.of_nat (length (done s)) + 1 + Z.of_nat (gap s))
    with (2 + Z.of_nat (length (done s)) + Z.of_nat (gap s)) by lia.
  lia.
Qed.

Lemma astep_weight s x r :
  weight 1 (rep (astep s x) r) + fresh (changed s) (changed (astep s x))
  <= weight 1 (rep s (x :: r)).
Proof.
  rewrite weight_rep, weight_rep_nil. unfold astep, fresh.
  destruct (Z.eqb_spec x 0) as [Hx|Hx]; cbn [done cur gap changed].
  { destruct (changed s); cbn [andb negb];
      replace (2 + Z.of_nat (length (done s)) + Z.of_nat (S (gap s)))
        with (3 + Z.of_nat (length (done s)) + Z.of_nat (gap s)) by lia; lia. }
  destruct (Z.eqb_spec (cur s) 0) as [Hz|Hz]; cbn [done cur gap changed].
  { destruct (Z.eqb_spec x 0); [contradiction|].
    replace (2 + Z.of_nat (length (done s)) + Z.of_nat (S (gap s)))
      with (3 + Z.of_nat (length (done s)) + Z.of_nat (gap s)) by lia.
    destruct (changed s); cbn [andb negb]; lia. }
  destruct (Z.eqb_spec x (cur s)) as [He|He]; cbn [done cur gap changed];
    rewrite weight_app, length_app; cbn [weight length Z.eqb];
    replace (2 + Z.of_nat (length (done s) + 1) + Z.of_nat (gap s))
      with (3 + Z.of_nat (length (done s)) + Z.of_nat (gap s)) by lia.
  - destruct (u8 (cur s + 1) =? 0); destruct (changed s); cbn [andb negb]; lia.
  - destruct (Z.eqb_spec (cur s) 0); [contradiction|].
    destruct (Z.eqb_spec x 0); [contradiction|].
    destruct (changed s); cbn [andb negb orb]; [lia|].
    destruct (gap s); cbn [Nat.eqb negb andb]; lia.
Qed.

Lemma arun_weight r :
  forall s,
  weight 1 (rep (arun s r) []) + fresh (changed s) (changed (arun s r))
  <= weight 1 (rep s r).
Proof.
  induction r as [|x r IH]; intro s; cbn [arun fold_left].
  - unfold fresh. destruct (changed s); cbn; lia.
  - fold (arun (astep s x) r).
    pose proof (IH (astep s x)) as H1.
    pose proof (astep_weight s x r) as H2.
    unfold fresh in *.
    destruct (changed s), (changed (astep s x)), (changed (arun (astep s x) r));
      cbn [andb negb] in *; lia.
Qed.

(** A line whose pass raised the flag is not the line it was. *)
Lemma arun_changed s r :
  changed s = false -> changed (arun s r) = true ->
  rep (arun s r) [] <> rep s r.
Proof.
  intros H0 H1 E.
  pose proof (arun_weight r s) as W. rewrite E in W.
  unfold fresh in W. rewrite H0, H1 in W. cbn in W. lia.
Qed.

(** ** The lines of the board *)

Section Geometry.

Variable size : nat.
Hypothesis size_pos : (1 <= size)%nat.

Lemma top_start_cases dir :
  top_start size dir
  = match dir with
    | direction.up | direction.left => 0
    | direction.down | direction.right => sz size * sz size - 1
    end.
Proof.
  unfold top_start, direction.integral.
  destruct dir;
    [change (Z.land 0 1) with 0 | change (Z.land 1 1) with 1
    |change (Z.land 2 1) with 0 | change (Z.land 3 1) with 1]; lia.
Qed.

Lemma line_geometry dir i :
  (i < size)%nat ->
  line_in (size * size) (line_base size dir i) (it_stride size dir) size.
Proof.
  intro Hi. unfold line_in, line_base. rewrite top_start_cases.
  unfold top_stride, it_stride, sz. rewrite Nat2Z.inj_mul.
  split.
  - destruct dir; lia.
  - intros k Hk. destruct dir; nia.
Qed.

Lemma digits_unique s a a' b b' :
  0 <= a < s -> 0 <= a' < s -> a + b * s = a' + b' * s -> a = a' /\ b = b'.
Proof.
  intros Ha Ha' E.
  assert (b = b') by (destruct (Z.lt_trichotomy b b') as [H|[H|H]]; nia).
  subst b'. lia.
Qed.

Lemma lines_disjoint dir i i' k :
  (i < size)%nat -> (i' < size)%nat -> (k < size)%nat -> i <> i' ->
  off_line (line_base size dir i') (it_stride size dir) size
    (line_base size dir i + Z.of_nat k * it_stride size dir).
Proof.
  intros Hi Hi' Hk Hne k' Hk'. unfold line_base. rewrite top_start_cases.
  unfold top_stride, it_stride, sz. intro E.
  destruct dir.
  - destruct (digits_unique (Z.of_nat size) (Z.of_nat i) (Z.of_nat i')
                (Z.of_nat k) (Z.of_nat k')); lia.
  - destruct (digits_unique (Z.of_nat size) (Z.of_nat i) (Z.of_nat i')
                (Z.of_nat k) (Z.of_nat k')); lia.
  - destruct (digits_unique (Z.of_nat size) (Z.of_nat k) (Z.of_nat k')
                (Z.of_nat i) (Z.of_nat i')); lia.
  - destruct (digits_unique (Z.of_nat size) (Z.of_nat k) (Z.of_nat k')
                (Z.of_nat i) (Z.of_nat i')); lia.
Qed.

End Geometry.

(** ** A pass that does not raise the flag changes nothing *)

Lemma body_unmodified d f :
  modified (body d f) = false ->
  cells (body d f) = cells f /\ empties (body d f) = empties f /\
  points (body d f) = points f /\ modified f = false.
Proof.
  unfold body. cbv zeta.
  destruct (rd (cells f) (it f) =? 0); [auto|].
  destruct (rd (cells f) (top f) =? 0); [discriminate|].
  destruct (rd (cells f) (it f) =? rd (cells f) (top f)); [discriminate|].
  destruct (top f + d =? it f); [auto|discriminate].
Qed.

Lemma inner_unmodified d n :
  forall f, modified (inner d n f) = false ->
  cells (inner d n f) = cells f /\ empties (inner d n f) = empties f /\
  points (inner d n f) = points f /\ modified f = false.
Proof.
  induction n as [|n IH]; intros f H; cbn [inner] in *; [auto|].
  destruct (IH _ H) as (C & E & P & M). cbn [advance modified] in M.
  destruct (body_unmodified d f M) as (C' & E' & P' & M').
  rewrite C, E, P. cbn [advance cells empties points]. auto.
Qed.

(** ** One line of the outer loop *)

Section LinePass.

Variable size : nat.
Hypothesis size_pos : (1 <= size)%nat.
Variable dir : direction.t.

Lemma line_pass_spec i f :
  (i < size)%nat ->
  length (cells f) = (size * size)%nat ->
  top f = line_base size dir i ->
  let l := line size dir i (cells f) in
  let f1 := line_pass size dir f in
  let s1 := arun (lstart l (modified f)) (tl l) in
  let ms := inner_merges (it_stride size dir) (size - 1) (line_start size dir f) in
  length (cells f1) = (size * size)%nat
  /\ line size dir i (cells f1) = rep s1 []
  /\ modified f1 = changed s1
  /\ (forall p, off_line (line_base size dir i) (it_stride size dir) size p ->
                rd (cells f1) p = rd (cells f) p)
  /\ points f1 = add_points (points f) (map cursor_before ms)
  /\ (forall b, 0 < b <= 255 -> bounded b l ->
        Forall (merge_ok b) ms
        /\ (Z.of_nat (size * size) < 2 ^ 16 ->
            empties f = zeros (cells f) ->
            empties f1 = zeros (cells f1) /\ empties f <= empties f1)).
Proof.
  intros Hi Hlen Htop l f1 s1 ms.
  pose proof (line_geometry size size_pos dir i Hi) as L.
  assert (Hl : length l = size) by apply length_pick.
  destruct l as [|c r] eqn:El; [cbn in Hl; lia|]. cbn [length] in Hl.
  assert (T : tracks (size * size) (line_base size dir i)
                (it_stride size dir) size
                (line_start size dir f) (lstart (c :: r) (modified f)) r).
  { constructor; cbn [line_start lstart cells top it modified done cur gap
                      changed length hd].
    - exact Hlen.
    - exact El.
    - rewrite Htop. lia.
    - rewrite Htop. lia.
    - lia.
    - reflexivity. }
  assert (Er : length r = (size - 1)%nat) by lia.
  pose proof (inner_spec _ _ _ _ L r _ _ T) as S1. rewrite Er in S1.
  change (inner (it_stride size dir) (size - 1) (line_start size dir f))
    with f1 in S1.
  change (inner_merges (it_stride size dir) (size - 1) (line_start size dir f))
    with ms in S1.
  cbn [tl] in s1. fold s1 in S1.
  destruct S1 as (T1 & O1 & P1 & V1).
  destruct T1 as [Hl1 Hc1 _ _ _ Hm1].
  split; [exact Hl1|]. split; [exact Hc1|]. split; [exact Hm1|].
  split; [exact O1|]. split; [exact P1|].
  intros b Hb Hbd. inversion Hbd as [|? ? Hc Hr]; subst.
  apply (V1 b Hb); assumption.
Qed.

End LinePass.

(** ** The outer loop *)

Section OuterLoop.

Variable size : nat.
Hypothesis size_pos : (1 <= size)%nat.
Variable dir : direction.t.

Lemma line_off_line i i' g g' :
  (i < size)%nat -> (i' < size)%nat -> i <> i' ->
  (forall p, off_line (line_base size dir i) (it_stride size dir) size p ->
             rd g' p = rd g p) ->
  line size dir i' g' = line size dir i' g.
Proof.
  intros Hi Hi' Hne H. unfold line. apply pick_ext. intros k Hk.
  apply H. apply lines_disjoint; auto.
Qed.

Lemma outer_spec m :
  forall i f,
  (i + m = size)%nat ->
  length (cells f) = (size * size)%nat ->
  top f = line_base size dir i ->
  let f' := outer size dir m (Z.of_nat i) f in
  let ms := outer_merges size dir m (Z.of_nat i) f in
  length (cells f') = (size * size)%nat
  /\ (forall i', (i' < i)%nat ->
                 line size dir i' (cells f') = line size dir i' (cells f))
  /\ (forall i', (i <= i' < size)%nat ->
        exists b, line size dir i' (cells f')
                  = rep (lpass (line size dir i' (cells f)) b) [])
  /\ (modified f' = true -> modified f = true \/ cells f' <> cells f)
  /\ points f' = add_points (points f) (map cursor_before ms)
  /\ (forall b, 0 < b <= 255 ->
        (forall i', (i <= i' < size)%nat ->
                    bounded b (line size dir i' (cells f))) ->
        Forall (merge_ok b) ms
        /\ (Z.of_nat (size * size) < 2 ^ 16 ->
            empties f = zeros (cells f) ->
            empties f' = zeros (cells f') /\ empties f <= empties f')).
Proof.
  induction m as [|m IH]; intros i f Him Hlen Htop f' ms.
  - subst f' ms. cbn [outer outer_merges map add_points fold_left].
    split; [exact Hlen|]. split; [reflexivity|].
    split; [intros i' Hi'; lia|]. split; [auto|]. split; [reflexivity|].
    intros b Hb Hbd. split; [constructor|]. intros _ E. split; [exact E|lia].
  - subst f' ms. cbn [outer outer_merges].
    assert (Hi : (i < size)%nat) by lia.
    destruct (line_pass_spec size size_pos dir i f Hi Hlen Htop)
      as (L1 & C1 & M1 & O1 & P1 & V1).
    set (f1 := line_pass size dir f) in *.
    replace (Z.of_nat i + 1) with (Z.of_nat (S i)) by lia.
    set (f2 := {| cells := cells f1; empties := empties f1;
                  points := points f1;
                  top := top_start size dir
                         + Z.of_nat (S i) * top_stride size dir;
                  it := it f1; modified := modified f1 |}).
    assert (Him' : (S i + m = size)%nat) by lia.
    destruct (IH (S i) f2 Him' L1 eq_refl) as (L2 & K2 & C2 & M2 & P2 & V2).
    change (cells f2) with (cells f1) in K2, C2, M2, V2.
    change (modified f2) with (modified f1) in M2.
    change (points f2) with (points f1) in P2.
    change (empties f2) with (empties f1) in V2.
    assert (Keep : forall i', (i' < size)%nat -> i <> i' ->
              line size dir i' (cells f1) = line size dir i' (cells f)).
    { intros i' Hi' Hne. apply (line_off_line i); auto. }
    split; [exact L2|]. split; [|split; [|split; [|split]]].
    + intros i' Hi'. rewrite K2 by lia. apply Keep; lia.
    + intros i' Hi'. destruct (Nat.eq_dec i i') as [<-|Hne].
      * exists (modified f). rewrite K2 by lia. exact C1.
      * destruct (C2 i') as [b Hb]; [lia|]. exists b.
        rewrite Hb. rewrite Keep by lia. reflexivity.
    + intro Hm. destruct (modified f) eqn:Mf; [now left|right].
      destruct (modified f1) eqn:Mf1.
      * intro E. 
        assert (E1 : line size dir i (cells f1) = line size dir i (cells f)).
        { rewrite <- (K2 i) by lia. now rewrite E. }
        rewrite C1 in E1. unfold lpass in *.
        revert E1. 
        assert (Hl : length (line size dir i (cells f)) = size)
          by apply length_pick.
        destruct (line size dir i (cells f)) as [|c r] eqn:El;
          [cbn in Hl; lia|].
        cbn [tl]. intro E1.
        apply (arun_changed (lstart (c :: r) false) r); auto.
      * destruct (M2 Hm) as [M|M]; [congruence|].
        unfold f1, line_pass in Mf1, M.
        destruct (inner_unmodified _ _ _ Mf1) as (C & _).
        rewrite C in M. exact M.
    + rewrite P2, P1, map_app, add_points_app. reflexivity.
    + intros b Hb Hbd.
      destruct (V1 b Hb (Hbd i ltac:(lia))) as (F1 & E1).
      destruct (V2 b Hb) as (F2 & E2).
      { intros i' Hi'. rewrite Keep by lia. apply Hbd. lia. }
      split; [apply Forall_app; split; assumption|].
      intros Hsz Hcnt. destruct (E1 Hsz Hcnt) as (C3 & G3).
      destruct (E2 Hsz C3) as (C4 & G4). split; [exact C4|lia].
Qed.

End OuterLoop.

Lemma outer_unmodified size dir m :
  forall i f, modified (outer size dir m i f) = false ->
  cells (outer size dir m i f) = cells f /\
  empties (outer size dir m i f) = empties f /\
  points (outer size dir m i f) = points f /\ modified f = false.
Proof.
  induction m as [|m IH]; intros i f H; cbn [outer] in *; [auto|].
  destruct (IH _ _ H) as (C & E & P & M).
  cbn [cells empties points modified] in C, E, P, M.
  unfold line_pass in *.
  destruct (inner_unmodified _ _ _ M) as (C' & E' & P' & M').
  cbn [cells empties points modified] in C', E', P', M'.
  rewrite C, E, P. auto.
Qed.

Lemma bounded_pick b g len base d n :
  line_in len base d n -> length g = len ->
  bounded b g -> bounded b (pick g base d n).
Proof.
  intros L Hg Hb. unfold bounded, pick in *.
  apply Forall_map, Forall_forall. intros k Hk. apply in_seq in Hk.
  pose proof (proj2 L k ltac:(lia)) as Hr.
  unfold rd. destruct (Z.ltb_spec (base + Z.of_nat k * d) 0); [lia|].
  rewrite Forall_forall in Hb. apply Hb. apply nth_In. lia.
Qed.

Lemma astep_length s x r :
  length (rep (astep s x) r) = length (rep s (x :: r)).
Proof.
  unfold rep, astep.
  destruct (x =? 0); [|destruct (cur s =? 0); [|destruct (x =? cur s)]];
    cbn [done cur gap];
    repeat (rewrite ?length_app, ?repeat_length; cbn [length repeat]); lia.
Qed.

Lemma arun_length r : forall s, length (rep (arun s r) []) = length (rep s r).
Proof.
  induction r as [|x r IH]; intro s; cbn [arun fold_left]; [reflexivity|].
  fold (arun (astep s x) r). rewrite IH. apply astep_length.
Qed.

(** The line a pass leaves is the rule of the game applied to the line it
    found. *)
Lemma lpass_spec l m :
  l <> [] -> bounded 255 l ->
  rep (lpass l m) [] = pad (length l) (merge_tiles (tiles l))
  /\ tiles (rep (lpass l m) []) = merge_tiles (tiles l).
Proof.
  intros Hl Hb. destruct l as [|c r]; [contradiction|].
  inversion Hb as [|? ? Hc Hr]; subst.
  unfold lpass. cbn [tl].
  destruct (arun_tiles r (lstart (c :: r) m)) as (E & F);
    [exact Hc|exact Hr|constructor|].
  cbn [lstart done cur hd app] in E.
  destruct (rep_final _ F) as (R1 & R2).
  split; [|now rewrite R2, E].
  rewrite R1, E. f_equal.
  assert (L1 : length (rep (arun (lstart (c :: r) m) r) [])
               = (length (done (arun (lstart (c :: r) m) r)) + 1
                  + gap (arun (lstart (c :: r) m) r))%nat).
  { unfold rep. rewrite length_app. cbn [length].
    rewrite length_app, repeat_length. cbn [length]. lia. }
  rewrite <- L1, arun_length. unfold rep. cbn [lstart done cur gap hd repeat app].
  reflexivity.
Qed.

(** ** [move_helper] as a whole *)

Section Helper.

Variable size : nat.
Hypothesis size_ok : (1 <= size <= 40)%nat.
Variable dir : direction.t.

Lemma board_fits : Z.of_nat (size * size) < 2 ^ 16.
Proof. rewrite Nat2Z.inj_mul. change (2 ^ 16) with 65536. nia. Qed.

Lemma helper_frame g :
  fst (move_helper size dir g)
  = {| prng_ := prng_ g;
       empty_cells_count_ := empties (move_frame size dir g);
       score_ := points (move_frame size dir g);
       state_ := state_ g;
       grid_ := cells (move_frame size dir g) |}
  /\ snd (move_helper size dir g) = modified (move_frame size dir g).
Proof. split; reflexivity. Qed.

Lemma helper_spec g :
  length (grid_ g) = (size * size)%nat ->
  let h := fst (move_helper size dir g) in
  let m := snd (move_helper size dir g) in
  let ms := helper_merges size dir g in
  length (grid_ h) = (size * size)%nat
  /\ prng_ h = prng_ g /\ state_ h = state_ g
  /\ (m = false -> h = g)
  /\ (m = true -> grid_ h <> grid_ g)
  /\ score_ h = add_points (score_ g) (map cursor_before ms)
  /\ (forall b, 0 < b <= 255 -> bounded b (grid_ g) ->
        Forall (merge_ok b) ms
        /\ (counted g ->
            counted h /\ empty_cells_count_ g <= empty_cells_count_ h)
        /\ (forall i, (i < size)%nat ->
              line size dir i (grid_ h)
              = pad size (merge_tiles (tiles (line size dir i (grid_ g))))
              /\ tiles (line size dir i (grid_ h))
                 = merge_tiles (tiles (line size dir i (grid_ g))))).
Proof.
  intros Hlen h m ms.
  destruct (helper_frame g) as (Eh & Em). fold h in Eh. fold m in Em.
  assert (Hpos : (1 <= size)%nat) by lia.
  pose (f0 := {| cells := grid_ g; empties := empty_cells_count_ g;
                 points := score_ g; top := top_start size dir;
                 it := top_start size dir; modified := false |}).
  assert (Htop : top f0 = line_base size dir 0)
    by (unfold line_base; cbn [f0 top]; lia).
  destruct (outer_spec size Hpos dir size 0 f0 eq_refl Hlen Htop)
    as (L & _ & C & M & P & V).
  change (outer size dir size (Z.of_nat 0) f0) with (move_frame size dir g) in *.
  change (outer_merges size dir size (Z.of_nat 0) f0) with ms in *.
  cbn [f0 cells empties points modified] in *.
  rewrite Eh, Em. cbn [grid_ prng_ state_ score_ empty_cells_count_].
  split; [exact L|]. split; [reflexivity|]. split; [reflexivity|].
  split; [|split; [|split; [exact P|]]].
  - intro Hm.
    destruct (outer_unmodified size dir size 0 f0 Hm) as (C' & E' & P' & _).
    change (outer size dir size 0 f0) with (move_frame size dir g) in *.
    rewrite C', E', P'. destruct g; reflexivity.
  - intro Hm. destruct (M Hm) as [F|F]; [discriminate|exact F].
  - intros b Hb Hbd.
    assert (Hlines : forall i', (0 <= i' < size)%nat ->
              bounded b (line size dir i' (grid_ g))).
    { intros i' Hi'. unfold line.
      apply (bounded_pick b _ (size * size)); auto.
      apply line_geometry; lia. }
    destruct (V b Hb Hlines) as (F & E).
    split; [exact F|]. split.
    + unfold counted. cbn [grid_ empty_cells_count_]. intro Hc.
      apply E; [apply board_fits|exact Hc].
    + intros i Hi. destruct (C i ltac:(lia)) as [fl Hfl].
      rewrite Hfl.
      assert (Hl : length (line size dir i (grid_ g)) = size)
        by apply length_pick.
      destruct (lpass_spec (line size dir i (grid_ g)) fl) as (R1 & R2).
      * intro E0. rewrite E0 in Hl. cbn in Hl. lia.
      * assert (Hb' : bounded 255 (line size dir i (grid_ g))).
        { eapply Forall_impl; [|apply (Hlines i); lia]. cbn. intros; lia. }
        exact Hb'.
      * split; [now rewrite R1, Hl|exact R2].
Qed.

End Helper.

(** ** [move] as a whole *)

Lemma add_points_sum es :
  forall p, 0 <= p < 2 ^ 32 -> add_points p es = u32 (p + sum_pow2 es).
Proof.
  induction es as [|e es IH]; intros p Hp;
    cbn [add_points fold_left sum_pow2 fold_right].
  - rewrite Z.add_0_r. symmetry. now apply u32_small.
  - fold (add_points (u32 (p + 2 ^ e)) es). fold (sum_pow2 es).
    rewrite IH by apply u32_range. unfold u32.
    rewrite Z.add_mod_idemp_l by lia. f_equal. lia.
Qed.

Lemma move_full size dir g :
  empty_cells_count_ g = 0 -> move size dir g = Some (end_game g).
Proof.
  intro H. unfold move, end_game.
  destruct (Z.eqb_spec (empty_cells_count_ g) 0); [reflexivity|contradiction].
Qed.

Section Move.

Variable size : nat.
Hypothesis size_ok : (1 <= size <= 40)%nat.
Variable dir : direction.t.

(** The three ways through [move] when the counter is right and no
    exponent overflows its cell. *)
Lemma move_cases g :
  length (grid_ g) = (size * size)%nat -> bounded 255 (grid_ g) ->
  counted g ->
  let h := fst (move_helper size dir g) in
  let m := snd (move_helper size dir g) in
  (empty_cells_count_ g = 0 /\ move size dir g = Some (end_game g))
  \/ (empty_cells_count_ g <> 0 /\ m = false /\ h = g /\
      move size dir g = Some g)
  \/ (empty_cells_count_ g <> 0 /\ m = true /\ grid_ h <> grid_ g /\
      counted h /\ 0 < empty_cells_count_ h < 2 ^ 16 /\
      move size dir g = spawn_new_number h).
Proof.
  intros W B C h m.
  destruct (Z.eq_dec (empty_cells_count_ g) 0) as [E|E].
  { left. split; [exact E|]. now apply move_full. }
  right.
  destruct (helper_spec size size_ok dir g W)
    as (L & _ & _ & U & M & _ & V).
  fold h in L, U, M, V. fold m in U, M.
  destruct (V 255 ltac:(lia) B) as (_ & Cn & _).
  destruct (Cn C) as (Ch & Ge).
  assert (Em : move size dir g = if m then spawn_new_number h else Some h).
  { unfold move. destruct (Z.eqb_spec (empty_cells_count_ g) 0); [contradiction|].
    subst h m. destruct (move_helper size dir g). reflexivity. }
  destruct m eqn:Hm.
  - right. repeat split; auto.
    + pose proof (zeros_bounds (grid_ g)). unfold counted in C. lia.
    + unfold counted in Ch. rewrite Ch.
      pose proof (zeros_bounds (grid_ h)) as Zb. rewrite L in Zb.
      pose proof (board_fits size size_ok). lia.
  - left. rewrite Em, (U eq_refl). auto.
Qed.

End Move.

(** ** [reset], the constructor and the counter *)

Lemma fresh_board_counted size g p v :
  (p < size * size)%nat -> v = 1 \/ v = 2 ->
  grid_ g = upd p v (repeat 0 (size * size)) ->
  empty_cells_count_ g = Z.of_nat (size * size) - 1 ->
  counted g.
Proof.
  intros Hp Hv Hg He. unfold counted. rewrite He, Hg.
  rewrite zeros_upd by (now rewrite repeat_length).
  rewrite zeros_repeat, nth_repeat.
  destruct Hv as [-> | ->]; cbn; lia.
Qed.

Section Reset.

Variable size : nat.
Hypothesis size_ok : (1 <= size <= 40)%nat.

Lemma cleared_counted (p : Xorshift.t) (s : Z) (st : State.t) (n : nat) :
  n = (size * size)%nat ->
  let g0 := {| prng_ := p; empty_cells_count_ := u16 (sz size * sz size);
               score_ := s; state_ := st; grid_ := repeat 0 n |} in
  0 < empty_cells_count_ g0 < 2 ^ 16 /\ counted g0
  /\ empty_cells_count_ g0 = Z.of_nat (size * size).
Proof.
  intros -> g0. unfold counted. cbn [g0 empty_cells_count_ grid_].
  pose proof (board_fits size size_ok) as Hf.
  rewrite zeros_repeat. unfold sz. rewrite <- Nat2Z.inj_mul.
  rewrite u16_small by lia. repeat split; nia.
Qed.

(** [reset]: one tile on an empty board, the counter one below
    [size * size], score and status as they were. *)
Lemma reset_spec g :
  length (grid_ g) = (size * size)%nat ->
  exists g' p v,
    reset size g = Some g'
    /\ (p < size * size)%nat /\ (v = 1 \/ v = 2)
    /\ grid_ g' = upd p v (repeat 0 (size * size))
    /\ empty_cells_count_ g' = Z.of_nat (size * size) - 1
    /\ score_ g' = score_ g /\ state_ g' = state_ g.
Proof.
  intro Hl. unfold reset. rewrite Hl.
  destruct (cleared_counted (prng_ g) (score_ g) (state_ g) (size * size)
              eq_refl) as (He & Hc & Hn).
  destruct (spawn_spec _ He Hc)
    as (g' & p & v & Sp & Hp & _ & Hv & Hg & Hec & Hs & Hst & _).
  cbn [grid_ score_ state_] in *. rewrite repeat_length in Hp.
  exists g', p, v. rewrite Hec, Hn. auto 10.
Qed.

Lemma make_spec seed :
  exists g' p v,
    make size seed = Some g'
    /\ (p < size * size)%nat /\ (v = 1 \/ v = 2)
    /\ grid_ g' = upd p v (repeat 0 (size * size))
    /\ empty_cells_count_ g' = Z.of_nat (size * size) - 1
    /\ score_ g' = 0 /\ state_ g' = State.running.
Proof.
  unfold make.
  destruct (cleared_counted (Xorshift.make seed) 0 State.running (size * size)
              eq_refl) as (He & Hc & Hn).
  destruct (spawn_spec _ He Hc)
    as (g' & p & v & Sp & Hp & _ & Hv & Hg & Hec & Hs & Hst & _).
  cbn [grid_ score_ state_] in *. rewrite repeat_length in Hp.
  exists g', p, v. rewrite Hec, Hn. auto 10.
Qed.

End Reset.

Section Counted.

Variable size : nat.
Hypothesis size_ok : (1 <= size <= 40)%nat.

Lemma make_counted seed :
  exists g, make size seed = Some g
            /\ counted g /\ length (grid_ g) = (size * size)%nat.
Proof.
  destruct (make_spec size size_ok seed)
    as (g & p & v & M & Hp & Hv & Hg & He & _).
  exists g. split; [exact M|]. split.
  - apply (fresh_board_counted size g p v); assumption.
  - now rewrite Hg, length_upd, repeat_length.
Qed.

Lemma reset_counted g :
  length (grid_ g) = (size * size)%nat ->
  exists g', reset size g = Some g'
             /\ counted g' /\ length (grid_ g') = (size * size)%nat.
Proof.
  intro Hl.
  destruct (reset_spec size size_ok g Hl)
    as (g' & p & v & R & Hp & Hv & Hg & He & _).
  exists g'. split; [exact R|]. split.
  - apply (fresh_board_counted size g' p v); assumption.
  - now rewrite Hg, length_upd, repeat_length.
Qed.

Lemma move_counted dir g :
  length (grid_ g) = (size * size)%nat -> bounded 255 (grid_ g) ->
  counted g ->
  exists g', move size dir g = Some g'
             /\ counted g' /\ length (grid_ g') = (size * size)%nat.
Proof.
  intros Hl B C.
  destruct (move_cases size size_ok dir g Hl B C)
    as [(E & M)|[(E & Hm & Hh & M)|(E & Hm & _ & Ch & Eh & M)]].
  - exists (end_game g). split; [exact M|]. split; [exact C|exact Hl].
  - exists g. split; [exact M|]. split; [exact C|exact Hl].
  - destruct (helper_spec size size_ok dir g Hl) as (L & _).
    destruct (spawn_spec _ Eh Ch)
      as (g' & p & v & Sp & Hp & Hz & Hv & Hg & Hec & _).
    exists g'. split; [now rewrite M|]. split.
    + unfold counted. rewrite Hec, Hg, zeros_upd by exact Hp.
      rewrite Hz. unfold counted in Ch. rewrite Ch.
      destruct Hv as [-> | ->]; cbn; lia.
    + now rewrite Hg, length_upd.
Qed.

Lemma apply_op_counted o g :
  length (grid_ g) = (size * size)%nat -> bounded 255 (grid_ g) ->
  counted g ->
  exists g', apply_op size o g = Some g'
             /\ counted g' /\ length (grid_ g') = (size * size)%nat.
Proof.
  intros Hl B C. destruct o as [d|]; cbn [apply_op].
  - now apply move_counted.
  - now apply reset_counted.
Qed.

Lemma reachable_counted g :
  reachable size g -> counted g /\ length (grid_ g) = (size * size)%nat.
Proof.
  induction 1 as [seed g M|o g g' _ [C L] B A].
  - destruct (make_counted seed) as (g0 & M0 & C0 & L0).
    rewrite M in M0. injection M0 as <-. auto.
  - destruct (apply_op_counted o g L B C) as (g1 & A1 & C1 & L1).
    rewrite A in A1. injection A1 as <-. auto.
Qed.

End Counted.

Lemma moves_ended size ds g :
  empty_cells_count_ g = 0 -> moves size ds (end_game g) = Some (end_game g).
Proof.
  intro E. induction ds as [|d ds IH]; [reflexivity|].
  cbn [moves]. rewrite (move_full size d (end_game g)) by exact E.
  exact IH.
Qed.

(** * The statements of the specification, C1 to C10 *)

(** Discharges the side conditions of a concrete engine. *)
Ltac sample_engine :=
  repeat split; cbn;
  try lia;
  try (repeat constructor; unfold is_u8; lia).

(** ** C1: the score and the merges *)

(** C1, as the source has it.  [move] is defined on every well-typed engine
    whose counter is right and whose exponents are below 32, and for every
    merge it performs the cursor cell goes from a tile exponent [e] to
    [e + 1] while the score grows by [2 ^ e], the value of each of the two
    tiles merged (half the value of the tile formed), in [unsigned int]
    arithmetic.  The score after the move is the score before it plus the sum
    of these amounts; in particular a move without a merge leaves the score
    as it was, and so does [reset]. *)
Theorem score_by_merges (size : nat) (dir : direction.t) (g : Grid) :
  (1 <= size <= 40)%nat ->
  well_typed size g -> counted g -> bounded 32 (grid_ g) ->
  exists g',
    move size dir g = Some g'
    /\ Forall (merge_ok 32) (move_merges size dir g)
    /\ score g'
       = u32 (score g + sum_pow2 (map cursor_before (move_merges size dir g)))
    /\ (move_merges size dir g = [] -> score g' = score g)
    /\ (exists g2, reset size g = Some g2 /\ score g2 = score g).
Proof.
  intros Hs W C B.
  assert (B' : bounded 255 (grid_ g))
    by (eapply Forall_impl; [|exact B]; cbn; intros; lia).
  pose proof (wt_score _ _ W) as Hsc.
  assert (Key : exists g', move size dir g = Some g'
                /\ Forall (merge_ok 32) (move_merges size dir g)
                /\ score g' = add_points (score g)
                     (map cursor_before (move_merges size dir g))).
  { unfold move_merges.
    destruct (move_cases size Hs dir g (wt_length _ _ W) B' C)
      as [(E & M)|[(E & Hm & Hh & M)|(E & Hm & _ & Ch & Eh & M)]].
    - exists (end_game g). rewrite E. cbn. auto.
    - destruct (helper_spec size Hs dir g (wt_length _ _ W))
        as (_ & _ & _ & _ & _ & P & V).
      destruct (V 32 ltac:(lia) B) as (F & _).
      exists g. destruct (Z.eqb_spec (empty_cells_count_ g) 0); [contradiction|].
      rewrite Hh in P. auto.
    - destruct (helper_spec size Hs dir g (wt_length _ _ W))
        as (_ & _ & _ & _ & _ & P & V).
      destruct (V 32 ltac:(lia) B) as (F & _).
      destruct (spawn_spec _ Eh Ch) as (g' & p & v & Sp & _ & _ & _ & _ & _ & Sc & _).
      exists g'. destruct (Z.eqb_spec (empty_cells_count_ g) 0); [contradiction|].
      rewrite M, Sp. unfold score. rewrite Sc, P. auto. }
  destruct Key as (g' & M & F & P). exists g'.
  rewrite P, add_points_sum by exact Hsc.
  split; [exact M|]. split; [exact F|]. split; [reflexivity|]. split.
  - intros ->. cbn. rewrite Z.add_0_r. now apply u32_small.
  - destruct (reset_spec size Hs g (wt_length _ _ W))
      as (g2 & _ & _ & R & _ & _ & _ & _ & Sc & _).
    exists g2. split; [exact R|exact Sc].
Qed.


Lemma score_by_merges_witness :
  exists g',
    move 2 direction.left pair_board = Some g'
    /\ Forall (merge_ok 32) (move_merges 2 direction.left pair_board)
    /\ score g'
       = u32 (score pair_board
              + sum_pow2 (map cursor_before
                            (move_merges 2 direction.left pair_board)))
    /\ (move_merges 2 direction.left pair_board = [] -> score g' = score pair_board)
    /\ (exists g2, reset 2 pair_board = Some g2 /\ score g2 = score pair_board).
Proof.
  apply (score_by_merges 2 direction.left pair_board).
  - lia.
  - constructor; sample_engine.
  - reflexivity.
  - sample_engine.
Defined.

(** C1, as the specification has it, fails: merging two tiles of exponent 1
    into a tile of value [2 ^ 2] adds 2 to the score, not 4. *)
Lemma score_not_new_tile :
  move_merges 2 direction.left pair_board
  = [{| cursor_before := 1; cursor_after := 2 |}]
  /\ option_map score (move 2 direction.left pair_board)
     = Some (score pair_board + 2)
  /\ option_map score (move 2 direction.left pair_board)
     <> Some (score pair_board + 2 ^ 2).
Proof.
  split; [reflexivity|]. split; [reflexivity|].
  intro H. vm_compute in H. discriminate H.
Qed.

(** ** C2: [reset] and the status *)

(** C2.  On a full 2x2 board [move] sets the status to [ended]; [reset]
    then leaves one tile, three empty cells and the score, and the status
    is still [ended], not [running]. *)
Theorem reset_leaves_ended :
  move 2 direction.up full_board = Some ended_board
  /\ state ended_board = State.ended
  /\ option_map data (reset 2 ended_board) = Some [0; 1; 0; 0]
  /\ option_map empty_cells_count_ (reset 2 ended_board) = Some 3
  /\ option_map score (reset 2 ended_board) = Some (score ended_board)
  /\ option_map state (reset 2 ended_board) = Some State.ended.
Proof. repeat split. Qed.

(** ** C3: the value of a spawned tile *)

(** C3: of the generator outputs [0 .. n-1], the ones for which
    [spawn_new_number] stores exponent 2 (tile 4) are [0], [1], [2] and [3]
    only; over the [2^32] outputs that is 4 of them, not a quarter.  The
    output 3 gives exponent 2, the output 4 gives exponent 1. *)
Theorem spawn_four_count (n : nat) :
  count_four n = Nat.min n 4 /\ spawn_value 3 = 2 /\ spawn_value 4 = 1.
Proof.
  split; [|split; reflexivity].
  induction n as [|n IH]; [reflexivity|].
  rewrite count_four_S, IH.
  destruct (le_lt_dec 4 n) as [Hge|Hlt].
  - rewrite spawn_value_high by lia. cbn. lia.
  - do 4 (destruct n as [|n]; [reflexivity|]). lia.
Qed.

(** ** C4: the generator *)

(** C4, as the source has it: [operator()] is the three-stage XOR-shift with
    shift amounts left 13, right 17 and left 15, each shifted value XOR-ed
    back into the state in that order; for every 32-bit seed its output
    sequence is that of the 13/17/15 generator. *)
Theorem xorshift_13_17_15 (seed : Z) (n : nat) :
  0 <= seed < 2 ^ 32 ->
  Xorshift.outputs n seed = XorshiftSpec.outputs 13 17 15 n seed.
Proof.
  revert seed. induction n as [|n IH]; intros seed Hs; [reflexivity|].
  cbn [Xorshift.outputs XorshiftSpec.outputs].
  pose proof (next_is_step seed Hs) as E.
  pose proof (next_range seed Hs) as R.
  pose proof (next_state seed) as S.
  destruct (Xorshift.next seed) as [r s'] eqn:N. cbn [fst snd] in *.
  subst s'. rewrite <- E. f_equal. apply IH. exact R.
Qed.

Lemma xorshift_13_17_15_witness :
  Xorshift.outputs 3 1 = XorshiftSpec.outputs 13 17 15 3 1.
Proof. apply (xorshift_13_17_15 1 3). lia. Defined.

(** C4, as the specification has it, fails: from seed 1 the first output of
    the source's generator is [0x1000A001], that of the canonical 13/17/5
    generator is [0x42021]. *)
Lemma xorshift_not_canonical :
  Xorshift.outputs 1 (Xorshift.make 1) = [268476417]
  /\ XorshiftSpec.canonical 1 1 = [270369]
  /\ Xorshift.outputs 1 (Xorshift.make 1) <> XorshiftSpec.canonical 1 1.
Proof.
  split; [reflexivity|]. split; [reflexivity|].
  intro H. vm_compute in H. discriminate H.
Qed.

(** ** C5: the counter of empty cells *)

(** C5.  The constructor returns an engine, and every engine reached from
    it by [move] and [reset] calls has [empty_cells_count_] equal to the
    number of zero entries of [data()]; on such an engine, as long as no
    exponent exceeds 254, every further [move] or [reset] returns an engine
    for which the equation holds again. *)
Theorem empty_count_invariant (size : nat) (g : Grid) :
  (1 <= size <= 40)%nat ->
  reachable size g ->
  empty_cells_count_ g = zeros (data g)
  /\ (forall seed, exists g0, make size seed = Some g0
                              /\ empty_cells_count_ g0 = zeros (data g0))
  /\ (bounded 255 (data g) ->
      forall o, exists g', apply_op size o g = Some g'
                           /\ empty_cells_count_ g' = zeros (data g')).
Proof.
  intros Hs R. destruct (reachable_counted size Hs g R) as (C & L).
  split; [exact C|]. split.
  - intro seed. destruct (make_counted size Hs seed) as (g0 & M & C0 & _).
    exists g0. auto.
  - intros B o.
    destruct (apply_op_counted size Hs o g L B C) as (g' & A & C' & _).
    exists g'. auto.
Qed.

Lemma empty_count_invariant_witness :
  empty_cells_count_ pair_moved = zeros (data pair_moved)
  /\ (forall seed, exists g0, make 2 seed = Some g0
                              /\ empty_cells_count_ g0 = zeros (data g0))
  /\ (bounded 255 (data pair_moved) ->
      forall o, exists g', apply_op 2 o pair_moved = Some g'
                           /\ empty_cells_count_ g' = zeros (data g')).
Proof.
  apply (empty_count_invariant 2 pair_moved).
  - lia.
  - apply (reach_op 2 (Move direction.left) pair_start).
    + apply (reach_make 2 1). vm_compute. reflexivity.
    + sample_engine.
    + vm_compute. reflexivity.
Defined.

(** ** C6: a pass that changes nothing spawns nothing *)

(** C6.  On a well-typed engine with a right, non-zero counter and no
    exponent above 254: if the board [move_helper] leaves is the board it
    found, [move] returns the engine it was given, every field as it was (so
    the generator was not called); if the board differs, [move] is one call
    of [spawn_new_number] on the engine [move_helper] left, which puts one
    tile into one of its empty cells. *)
Theorem noop_detection (size : nat) (dir : direction.t) (g : Grid) :
  (1 <= size <= 40)%nat ->
  well_typed size g -> bounded 255 (grid_ g) -> counted g ->
  empty_cells_count_ g <> 0 ->
  let h := fst (move_helper size dir g) in
  (data h = data g -> move size dir g = Some g)
  /\ (data h <> data g ->
      exists g' p,
        move size dir g = Some g'
        /\ spawn_new_number h = Some g'
        /\ (p < length (data h))%nat
        /\ nth p (data h) 0 = 0
        /\ (nth p (data g') 0 = 1 \/ nth p (data g') 0 = 2)
        /\ (forall q, q <> p -> nth q (data g') 0 = nth q (data h) 0)).
Proof.
  intros Hs W B C E h. unfold data.
  destruct (move_cases size Hs dir g (wt_length _ _ W) B C)
    as [(E0 & _)|[(_ & Hm & Hh & M)|(_ & Hm & Hne & Ch & Eh & M)]];
    [contradiction| |]; fold h in Hh || fold h in Hne, Ch, Eh, M.
  - split; [intros _; exact M|]. intro Hd. rewrite Hh in Hd. contradiction.
  - split; [intro Hd; contradiction|]. intros _.
    destruct (spawn_spec _ Eh Ch)
      as (g' & p & v & Sp & Hp & Hz & Hv & Hg & _).
    exists g', p. rewrite M, Hg.
    split; [exact Sp|]. split; [exact Sp|]. split; [exact Hp|].
    split; [exact Hz|]. split; [now rewrite nth_upd_same|].
    intros q Hq. apply nth_upd_other. congruence.
Qed.

Lemma noop_detection_witness :
  let h := fst (move_helper 2 direction.left pair_board) in
  (data h = data pair_board -> move 2 direction.left pair_board = Some pair_board)
  /\ (data h <> data pair_board ->
      exists g' p,
        move 2 direction.left pair_board = Some g'
        /\ spawn_new_number h = Some g'
        /\ (p < length (data h))%nat
        /\ nth p (data h) 0 = 0
        /\ (nth p (data g') 0 = 1 \/ nth p (data g') 0 = 2)
        /\ (forall q, q <> p -> nth q (data g') 0 = nth q (data h) 0)).
Proof.
  apply (noop_detection 2 direction.left pair_board).
  - lia.
  - constructor; sample_engine.
  - sample_engine.
  - reflexivity.
  - cbn. lia.
Defined.

(** ** C7: the end of the game *)

(** C7.  When the counter is zero, [move] in any direction returns the
    engine with its status set to [ended] and every other field as it was;
    after that any sequence of further moves returns that same engine. *)
Theorem game_over_transition
    (size : nat) (d : direction.t) (ds : list direction.t) (g : Grid) :
  empty_cells_count_ g = 0 ->
  exists g1,
    move size d g = Some g1
    /\ state g1 = State.ended
    /\ data g1 = data g /\ score g1 = score g
    /\ empty_cells_count_ g1 = empty_cells_count_ g
    /\ prng_ g1 = prng_ g
    /\ moves size ds g1 = Some g1.
Proof.
  intro E. exists (end_game g).
  split; [now apply move_full|].
  repeat (split; [reflexivity|]). now apply moves_ended.
Qed.

Lemma game_over_transition_witness :
  exists g1,
    move 2 direction.up full_board = Some g1
    /\ state g1 = State.ended
    /\ data g1 = data full_board /\ score g1 = score full_board
    /\ empty_cells_count_ g1 = empty_cells_count_ full_board
    /\ prng_ g1 = prng_ full_board
    /\ moves 2 [direction.left; direction.down; direction.right] g1 = Some g1.
Proof.
  apply (game_over_transition 2 direction.up
           [direction.left; direction.down; direction.right] full_board).
  reflexivity.
Defined.

(** ** C8: one merge per tile *)

(** C8, as the source has it.  After the slide-and-merge pass every line of
    the board, read from the leading edge, is [merge_tiles] of the tiles the
    line held, followed by empty cells: each tile of the result is a tile of
    the line or stands for exactly two equal neighbouring tiles, one exponent
    higher, so no tile formed by a merge is merged again and every tile's
    exponent grows by at most one.  What [move] does after the pass leaves
    every tile of the pass where it is. *)
Theorem single_merge_per_tile
    (size : nat) (dir : direction.t) (g : Grid) (i : nat) :
  (1 <= size <= 40)%nat ->
  well_typed size g -> bounded 255 (grid_ g) -> counted g ->
  empty_cells_count_ g <> 0 ->
  (i < size)%nat ->
  let h := fst (move_helper size dir g) in
  line size dir i (data h)
  = pad size (merge_tiles (tiles (line size dir i (data g))))
  /\ merged_once (tiles (line size dir i (data g)))
                 (tiles (line size dir i (data h)))
  /\ exists g',
       move size dir g = Some g'
       /\ forall p, nth p (data h) 0 <> 0 -> nth p (data g') 0 = nth p (data h) 0.
Proof.
  intros Hs W B C E Hi h. unfold data.
  destruct (helper_spec size Hs dir g (wt_length _ _ W))
    as (_ & _ & _ & _ & _ & _ & V).
  destruct (V 255 ltac:(lia) B) as (_ & _ & Ln).
  destruct (Ln i Hi) as (L1 & L2). fold h in L1, L2.
  split; [exact L1|]. split.
  { rewrite L2. apply merged_once_merge_tiles. }
  destruct (move_cases size Hs dir g (wt_length _ _ W) B C)
    as [(E0 & _)|[(_ & Hm & Hh & M)|(_ & Hm & Hne & Ch & Eh & M)]];
    [contradiction| |]; fold h in Hh || fold h in Hne, Ch, Eh, M.
  - exists g. split; [exact M|]. intros p _. now rewrite Hh.
  - destruct (spawn_spec _ Eh Ch)
      as (g' & p & v & Sp & Hp & Hz & Hv & Hg & _).
    exists g'. split; [now rewrite M|].
    intros q Hq. rewrite Hg. apply nth_upd_other. congruence.
Qed.

Lemma single_merge_per_tile_witness :
  let h := fst (move_helper 3 direction.left row_board) in
  line 3 direction.left 0 (data h)
  = pad 3 (merge_tiles (tiles (line 3 direction.left 0 (data row_board))))
  /\ merged_once (tiles (line 3 direction.left 0 (data row_board)))
                 (tiles (line 3 direction.left 0 (data h)))
  /\ exists g',
       move 3 direction.left row_board = Some g'
       /\ forall p, nth p (data h) 0 <> 0 -> nth p (data g') 0 = nth p (data h) 0.
Proof.
  apply (single_merge_per_tile 3 direction.left row_board 0).
  - lia.
  - constructor; sample_engine.
  - sample_engine.
  - reflexivity.
  - cbn. lia.
  - lia.
Defined.

(** C8, as the specification has it, fails for cells: in the row 4, 4, 128
    moved left, the two 4s merge and the 128 slides into the second cell,
    whose exponent goes from 2 to 7. *)
Lemma cell_grows_by_five :
  option_map data (move 3 direction.left row_board)
  = Some [3; 7; 0; 0; 0; 0; 0; 0; 1]
  /\ nth 1 (data row_board) 0 = 2
  /\ ~ (forall g', move 3 direction.left row_board = Some g' ->
        forall p, nth p (data g') 0 <= nth p (data row_board) 0 + 1).
Proof.
  assert (M : move 3 direction.left row_board
              = Some {| prng_ := 1157628417; empty_cells_count_ := 6;
                        score_ := 4; state_ := State.running;
                        grid_ := [3; 7; 0; 0; 0; 0; 0; 0; 1] |})
    by (vm_compute; reflexivity).
  split; [now rewrite M|]. split; [reflexivity|].
  intro H. specialize (H _ M 1%nat). cbn in H. lia.
Qed.

(** ** C9: what [reset] writes *)

(** C9.  [reset] does not write the status: it is defined on every engine
    of a board of [size * size] cells and returns an engine with the status
    and the score it was given, so an engine that reported [ended] still
    does.  Of the five fields, only the board, the counter and the generator
    state are written. *)
Theorem reset_keeps_status (size : nat) (g : Grid) :
  (1 <= size <= 40)%nat -> length (grid_ g) = (size * size)%nat ->
  exists g',
    reset size g = Some g'
    /\ state g' = state g /\ score g' = score g
    /\ (state g = State.ended -> state g' = State.ended).
Proof.
  intros Hs Hl.
  destruct (reset_spec size Hs g Hl) as (g' & p & v & R & _ & _ & _ & _ & Sc & St).
  exists g'. unfold state, score. rewrite St, Sc. auto.
Qed.

Lemma reset_keeps_status_witness :
  exists g',
    reset 2 ended_board = Some g'
    /\ state g' = state ended_board /\ score g' = score ended_board
    /\ (state ended_board = State.ended -> state g' = State.ended).
Proof.
  apply (reset_keeps_status 2 ended_board).
  - lia.
  - reflexivity.
Defined.

(** ** C10: the spawn finds its cell *)

(** C10.  When the counter is positive and counts the zero cells,
    [spawn_new_number] returns from inside its loop (the result is not the
    [None] of the unreachable marker); the board it leaves differs from the
    one it found in exactly one cell, which was zero and now holds exponent 1
    or 2. *)
Theorem spawn_reaches_cell (g : Grid) :
  0 < empty_cells_count_ g < 2 ^ 16 -> counted g ->
  exists g' p,
    spawn_new_number g = Some g'
    /\ (p < length (grid_ g))%nat
    /\ nth p (grid_ g) 0 = 0
    /\ (nth p (grid_ g') 0 = 1 \/ nth p (grid_ g') 0 = 2)
    /\ (forall q, q <> p -> nth q (grid_ g') 0 = nth q (grid_ g) 0)
    /\ length (grid_ g') = length (grid_ g).
Proof.
  intros He Hc.
  destruct (spawn_spec g He Hc) as (g' & p & v & Sp & Hp & Hz & Hv & Hg & _).
  exists g', p. rewrite Hg.
  split; [exact Sp|]. split; [exact Hp|]. split; [exact Hz|].
  split; [now rewrite nth_upd_same|].
  split; [|apply length_upd].
  intros q Hq. apply nth_upd_other. congruence.
Qed.

Lemma spawn_reaches_cell_witness :
  exists g' p,
    spawn_new_number pair_board = Some g'
    /\ (p < length (grid_ pair_board))%nat
    /\ nth p (grid_ pair_board) 0 = 0
    /\ (nth p (grid_ g') 0 = 1 \/ nth p (grid_ g') 0 = 2)
    /\ (forall q, q <> p -> nth q (grid_ g') 0 = nth q (grid_ pair_board) 0)
    /\ length (grid_ g') = length (grid_ pair_board).
Proof.
  apply (spawn_reaches_cell pair_board).
  - cbn. lia.
  - reflexivity.
Defined.

(** * Further properties of the code *)

(** ** The generator is a bijection of the 32-bit states *)

Lemma bits_above (x i : Z) : 0 <= x < 2 ^ 32 -> 32 <= i -> Z.testbit x i = false.
Proof.
  intros Hx Hi. destruct (Z.eq_dec x 0) as [->|Hn]; [apply Z.bits_0|].
  apply Z.bits_above_log2; [lia|].
  assert (Z.log2 x < 32) by (apply Z.log2_lt_pow2; lia). lia.
Qed.

Lemma stage_left_bit x k i :
  0 <= i < 32 ->
  Z.testbit (Z.lxor x (u32 (Z.shiftl x k))) i
  = xorb (Z.testbit x i) (Z.testbit x (i - k)).
Proof.
  intro Hi. rewrite Z.lxor_spec. unfold u32.
  rewrite Z.mod_pow2_bits_low by lia.
  now rewrite Z.shiftl_spec by lia.
Qed.

Lemma stage_right_bit x k i :
  0 <= i ->
  Z.testbit (Z.lxor x (Z.shiftr x k)) i
  = xorb (Z.testbit x i) (Z.testbit x (i + k)).
Proof. intro Hi. now rewrite Z.lxor_spec, Z.shiftr_spec by lia. Qed.

Lemma stage_left_inj k x y :
  0 < k -> 0 <= x < 2 ^ 32 -> 0 <= y < 2 ^ 32 ->
  Z.lxor x (u32 (Z.shiftl x k)) = Z.lxor y (u32 (Z.shiftl y k)) -> x = y.
Proof.
  intros Hk Hx Hy E.
  assert (B : forall n : nat, forall i, i < Z.of_nat n ->
                Z.testbit x i = Z.testbit y i).
  { induction n as [|n IH]; intros i Hi.
    - now rewrite !Z.testbit_neg_r by lia.
    - destruct (Z_lt_le_dec i 0) as [Hneg|Hpos];
        [now rewrite !Z.testbit_neg_r by lia|].
      destruct (Z_lt_le_dec i 32) as [Hlo|Hhi];
        [|now rewrite !bits_above by (assumption || lia)].
      pose proof (f_equal (fun z => Z.testbit z i) E) as Ei. cbv beta in Ei.
      rewrite !stage_left_bit in Ei by lia.
      rewrite (IH (i - k)) in Ei by lia.
      destruct (Z.testbit x i), (Z.testbit y i), (Z.testbit y (i - k));
        cbn in Ei; congruence. }
  apply Z.bits_inj'. intros i Hi. apply (B (Z.to_nat (i + 1))). lia.
Qed.

Lemma stage_right_inj k x y :
  0 < k -> 0 <= x < 2 ^ 32 -> 0 <= y < 2 ^ 32 ->
  Z.lxor x (Z.shiftr x k) = Z.lxor y (Z.shiftr y k) -> x = y.
Proof.
  intros Hk Hx Hy E.
  assert (B : forall n : nat, forall i, 32 - Z.of_nat n <= i ->
                Z.testbit x i = Z.testbit y i).
  { induction n as [|n IH]; intros i Hi.
    - now rewrite !bits_above by (assumption || lia).
    - destruct (Z_lt_le_dec i 0) as [Hneg|Hpos];
        [now rewrite !Z.testbit_neg_r by lia|].
      pose proof (f_equal (fun z => Z.testbit z i) E) as Ei. cbv beta in Ei.
      rewrite !stage_right_bit in Ei by lia.
      rewrite (IH (i + k)) in Ei by lia.
      destruct (Z.testbit x i), (Z.testbit y i), (Z.testbit y (i + k));
        cbn in Ei; congruence. }
  apply Z.bits_inj'. intros i Hi. apply (B 32%nat). lia.
Qed.

Lemma next_injective s t :
  0 <= s < 2 ^ 32 -> 0 <= t < 2 ^ 32 ->
  fst (Xorshift.next s) = fst (Xorshift.next t) -> s = t.
Proof.
  intros Hs Ht. unfold Xorshift.next. cbv zeta. cbn [fst]. intro E.
  assert (R1 : forall z, 0 <= z < 2 ^ 32 ->
                 0 <= Z.lxor z (u32 (Z.shiftl z 13)) < 2 ^ 32)
    by (intros z Hz; apply lxor_range; [lia|exact Hz|apply u32_range]).
  assert (R2 : forall z, 0 <= z < 2 ^ 32 ->
                 0 <= Z.lxor z (Z.shiftr z 17) < 2 ^ 32)
    by (intros z Hz; apply lxor_range; [lia|exact Hz|apply shiftr_range; [lia|exact Hz]]).
  apply stage_left_inj in E; [|lia|apply R2, R1, Hs|apply R2, R1, Ht].
  apply stage_right_inj in E; [|lia|apply R1, Hs|apply R1, Ht].
  apply stage_left_inj in E; [exact E|lia|exact Hs|exact Ht].
Qed.

Lemma next_nonzero s : 0 < s < 2 ^ 32 -> 0 < fst (Xorshift.next s) < 2 ^ 32.
Proof.
  intro Hs. pose proof (next_range s ltac:(lia)) as R.
  destruct (Z.eq_dec (fst (Xorshift.next s)) 0) as [E|E]; [|lia].
  assert (s = 0); [|lia].
  apply next_injective; [lia|lia|]. rewrite E. reflexivity.
Qed.

(** X1.  A generator built from a 32-bit seed never returns zero: every
    output is in [1, 2^32).  The state zero, which the constructor replaces
    by one, would return zero for ever. *)
Theorem xorshift_never_zero (seed : Z) (n : nat) :
  0 <= seed < 2 ^ 32 ->
  Forall (fun r => 0 < r < 2 ^ 32) (Xorshift.outputs n (Xorshift.make seed))
  /\ Xorshift.outputs n 0 = repeat 0 n.
Proof.
  intro Hs. split.
  - assert (H0 : 0 < Xorshift.make seed < 2 ^ 32).
    { unfold Xorshift.make. destruct (Z.eqb_spec seed 0); lia. }
    revert H0. generalize (Xorshift.make seed) as s.
    induction n as [|n IH]; intros s H0; [constructor|].
    cbn [Xorshift.outputs].
    pose proof (next_nonzero s H0) as R. pose proof (next_state s) as S.
    destruct (Xorshift.next s) as [r s']. cbn [fst snd] in *. subst s'.
    constructor; [exact R|apply IH; exact R].
  - induction n as [|n IH]; [reflexivity|].
    change (Xorshift.outputs (S n) 0) with (0 :: Xorshift.outputs n 0).
    cbn [repeat]. now rewrite IH.
Qed.

Lemma xorshift_never_zero_witness :
  Forall (fun r => 0 < r < 2 ^ 32) (Xorshift.outputs 4 (Xorshift.make 0))
  /\ Xorshift.outputs 4 0 = repeat 0 4.
Proof. apply (xorshift_never_zero 0 4). lia. Defined.

(** X2.  [operator()] is injective on the 32-bit states: two generators in
    different states return different values and move to different states,
    so the sequence of a generator never merges with that of another. *)
Theorem xorshift_no_collision (s t : Z) :
  0 <= s < 2 ^ 32 -> 0 <= t < 2 ^ 32 -> s <> t ->
  fst (Xorshift.next s) <> fst (Xorshift.next t)
  /\ snd (Xorshift.next s) <> snd (Xorshift.next t).
Proof.
  intros Hs Ht Hne. rewrite !next_state.
  assert (fst (Xorshift.next s) <> fst (Xorshift.next t)); [|auto].
  intro E. apply Hne. now apply next_injective.
Qed.

Lemma xorshift_no_collision_witness :
  fst (Xorshift.next 1) <> fst (Xorshift.next 2)
  /\ snd (Xorshift.next 1) <> snd (Xorshift.next 2).
Proof. apply (xorshift_no_collision 1 2); lia. Defined.

(** ** Where [spawn_new_number] is defined, and the cell it picks *)

Lemma spawn_scan_none prng g :
  forall loc, 0 <= loc < 2 ^ 16 ->
  (spawn_scan prng loc g = None <-> zeros g <= loc).
Proof.
  induction g as [|x r IH]; intros loc Hl; cbn [spawn_scan zeros].
  - split; [lia|reflexivity].
  - destruct (Z.eqb_spec x 0) as [Hx|Hx].
    + destruct (Z.eqb_spec loc 0) as [Hloc|Hloc]; cbn [andb].
      * destruct (Xorshift.next prng). pose proof (zeros_bounds r).
        split; [discriminate|lia].
      * rewrite u16_small by lia.
        destruct (IH (loc - 1) ltac:(lia)) as [I1 I2].
        destruct (spawn_scan prng (loc - 1) r) as [[? ?]|].
        -- split; [discriminate|]. intro H. discriminate I2. lia.
        -- split; [|reflexivity]. intros _.
           assert (zeros r <= loc - 1) by now apply I1. lia.
    + rewrite andb_false_r. destruct (IH loc Hl) as [I1 I2].
      destruct (spawn_scan prng loc r) as [[? ?]|].
      * split; [discriminate|]. intro H. discriminate I2. lia.
      * split; [|reflexivity]. intros _.
        assert (zeros r <= loc) by now apply I1. lia.
Qed.

Lemma spawn_scan_prng prng g :
  forall loc c p', spawn_scan prng loc g = Some (c, p') ->
  p' = snd (Xorshift.next prng).
Proof.
  induction g as [|x r IH]; intros loc c p' H; cbn [spawn_scan] in H;
    [discriminate|].
  destruct ((loc =? 0) && (x =? 0)).
  - destruct (Xorshift.next prng) as [v q]. now inversion H.
  - destruct (spawn_scan prng (if x =? 0 then u16 (loc - 1) else loc) r)
      as [[c' q]|] eqn:Sc; [|discriminate].
    inversion H; subst. eapply IH. exact Sc.
Qed.

(** What any defined spawn keeps and what it does to the generator. *)
Lemma spawn_frame g g' :
  spawn_new_number g = Some g' ->
  state_ g' = state_ g /\ score_ g' = score_ g
  /\ prng_ g' = snd (Xorshift.next (snd (Xorshift.next (prng_ g)))).
Proof.
  unfold spawn_new_number.
  destruct (empty_cells_count_ g =? 0); [discriminate|].
  destruct (Xorshift.next (prng_ g)) as [r p1] eqn:N. cbn [snd].
  destruct (spawn_scan p1 (u16 (r mod empty_cells_count_ g)) (grid_ g))
    as [[c p2]|] eqn:Sc; [|discriminate].
  intro H. inversion H; subst. cbn.
  repeat split. eapply spawn_scan_prng. exact Sc.
Qed.

(** X3.  [spawn_new_number] is undefined exactly when the counter is zero
    (a remainder by zero) or the board has no more zero cells than the
    ordinal drawn (the loop runs off the board); on a board without an empty
    cell it is undefined whatever the counter says. *)
Theorem spawn_undefined_iff (g : Grid) :
  0 <= empty_cells_count_ g < 2 ^ 16 ->
  (spawn_new_number g = None <->
   empty_cells_count_ g = 0
   \/ zeros (grid_ g)
      <= fst (Xorshift.next (prng_ g)) mod empty_cells_count_ g)
  /\ (zeros (grid_ g) = 0 -> spawn_new_number g = None).
Proof.
  intro He.
  assert (Iff : spawn_new_number g = None <->
                empty_cells_count_ g = 0
                \/ zeros (grid_ g)
                   <= fst (Xorshift.next (prng_ g)) mod empty_cells_count_ g).
  { unfold spawn_new_number.
    destruct (Z.eqb_spec (empty_cells_count_ g) 0) as [E|E];
      [split; auto|].
    destruct (Xorshift.next (prng_ g)) as [r p1]. cbn [fst].
    pose proof (Z.mod_pos_bound r (empty_cells_count_ g) ltac:(lia)) as Hm.
    rewrite u16_small by lia.
    pose proof (spawn_scan_none p1 (grid_ g) (r mod empty_cells_count_ g)
                  ltac:(lia)) as [I1 I2].
    destruct (spawn_scan p1 (r mod empty_cells_count_ g) (grid_ g))
      as [[c p2]|].
    - split; [discriminate|]. intros [H|H]; [contradiction|].
      discriminate I2. exact H.
    - split; [|reflexivity]. intros _. right. now apply I1. }
  split; [exact Iff|]. intro Hz. apply Iff.
  destruct (Z.eq_dec (empty_cells_count_ g) 0) as [E|E]; [now left|right].
  rewrite Hz. apply Z.mod_pos_bound. lia.
Qed.

Lemma spawn_undefined_iff_witness :
  (spawn_new_number full_board = None <->
   empty_cells_count_ full_board = 0
   \/ zeros (grid_ full_board)
      <= fst (Xorshift.next (prng_ full_board)) mod empty_cells_count_ full_board)
  /\ (zeros (grid_ full_board) = 0 -> spawn_new_number full_board = None).
Proof. apply (spawn_undefined_iff full_board). cbn. lia. Defined.

(** X4.  When the counter is positive and does not exceed the number of
    zero cells, the spawn calls the generator exactly twice: the first output
    [r1], reduced modulo the counter, is the number of zero cells that
    precede the chosen cell in board order, and the second output [r2]
    decides the exponent stored there. *)
Theorem spawn_picks_ordinal (g : Grid) :
  0 < empty_cells_count_ g < 2 ^ 16 ->
  empty_cells_count_ g <= zeros (grid_ g) ->
  let r1 := fst (Xorshift.next (prng_ g)) in
  let p1 := snd (Xorshift.next (prng_ g)) in
  let r2 := fst (Xorshift.next p1) in
  exists g' p,
    spawn_new_number g = Some g'
    /\ (p < length (grid_ g))%nat
    /\ nth p (grid_ g) 0 = 0
    /\ zeros (firstn p (grid_ g)) = r1 mod empty_cells_count_ g
    /\ grid_ g' = upd p (spawn_value r2) (grid_ g)
    /\ prng_ g' = snd (Xorshift.next p1)
    /\ empty_cells_count_ g' = empty_cells_count_ g - 1.
Proof.
  intros He Hz r1 p1 r2. subst r1 p1 r2. unfold spawn_new_number.
  destruct (Z.eqb_spec (empty_cells_count_ g) 0) as [E|_]; [lia|].
  destruct (Xorshift.next (prng_ g)) as [r q]. cbn [fst snd].
  pose proof (Z.mod_pos_bound r (empty_cells_count_ g) (proj1 He)) as Hm.
  rewrite u16_small by lia.
  destruct (spawn_scan_finds q (r mod empty_cells_count_ g) (grid_ g))
    as (p & Hp & Hn & Hf & Hs); [lia|lia|].
  rewrite Hs. eexists _, p. split; [reflexivity|]. cbn.
  repeat split; try assumption. apply u16_small. lia.
Qed.

Lemma spawn_picks_ordinal_witness :
  let r1 := fst (Xorshift.next (prng_ pair_board)) in
  let p1 := snd (Xorshift.next (prng_ pair_board)) in
  let r2 := fst (Xorshift.next p1) in
  exists g' p,
    spawn_new_number pair_board = Some g'
    /\ (p < length (grid_ pair_board))%nat
    /\ nth p (grid_ pair_board) 0 = 0
    /\ zeros (firstn p (grid_ pair_board))
       = r1 mod empty_cells_count_ pair_board
    /\ grid_ g' = upd p (spawn_value r2) (grid_ pair_board)
    /\ prng_ g' = snd (Xorshift.next p1)
    /\ empty_cells_count_ g' = empty_cells_count_ pair_board - 1.
Proof.
  apply (spawn_picks_ordinal pair_board); cbn; lia.
Defined.

(** ** The status and the generator state through the operations *)

Lemma move_frame_of size d g g' :
  move size d g = Some g' ->
  state_ g' = (if empty_cells_count_ g =? 0 then State.ended else state_ g)
  /\ (prng_ g' = prng_ g
      \/ prng_ g' = snd (Xorshift.next (snd (Xorshift.next (prng_ g))))).
Proof.
  unfold move. destruct (empty_cells_count_ g =? 0).
  - intro H. inversion H; subst. cbn. auto.
  - pose proof (helper_frame size d g) as (Eh & _).
    destruct (move_helper size d g) as [h m]. cbn [fst] in Eh.
    destruct m; intro H.
    + destruct (spawn_frame _ _ H) as (St & _ & Pr).
      rewrite St, Pr, Eh. cbn. auto.
    + inversion H; subst. cbn. auto.
Qed.

Lemma reset_frame_of size g g' :
  reset size g = Some g' ->
  state_ g' = state_ g /\ score_ g' = score_ g
  /\ prng_ g' = snd (Xorshift.next (snd (Xorshift.next (prng_ g)))).
Proof. unfold reset. intro H. apply spawn_frame in H. exact H. Qed.

(** X5.  The status is written in one place only: after a [move] it is
    [ended] when the counter was zero at entry and the status of before
    otherwise, so the move that fills the last empty cell does not end the
    game, the next one does; after a [reset] it is the status of before. *)
Theorem status_after_op (size : nat) (o : op) (g g' : Grid) :
  apply_op size o g = Some g' ->
  state g'
  = match o with
    | Move _ => if empty_cells_count_ g =? 0 then State.ended else state g
    | Reset => state g
    end.
Proof.
  destruct o as [d|]; cbn [apply_op]; intro H.
  - apply (move_frame_of size d g g' H).
  - apply (reset_frame_of size g g' H).
Qed.

Lemma status_after_op_witness :
  state pair_moved
  = match Move direction.left with
    | Move _ =>
        if empty_cells_count_ pair_start =? 0 then State.ended
        else state pair_start
    | Reset => state pair_start
    end.
Proof.
  apply (status_after_op 2 (Move direction.left) pair_start pair_moved).
  vm_compute. reflexivity.
Defined.

(** X6.  [ended] is final: whatever [move] and [reset] calls follow, an
    engine that reports [ended] reports [ended] afterwards; no operation of
    the engine sets the status back to [running]. *)
Theorem ended_is_final (size : nat) (os : list op) (g g' : Grid) :
  state g = State.ended -> run size os g = Some g' -> state g' = State.ended.
Proof.
  revert g. induction os as [|o os IH]; intros g Hs H; cbn [run] in H.
  - now inversion H; subst.
  - destruct (apply_op size o g) as [g1|] eqn:A; [|discriminate].
    apply (IH g1); [|exact H].
    destruct o as [d|]; cbn [apply_op] in A.
    + destruct (move_frame_of size d g g1 A) as (St & _).
      unfold state in *. rewrite St, Hs. now destruct (_ =? _).
    + destruct (reset_frame_of size g g1 A) as (St & _).
      unfold state in *. now rewrite St.
Qed.

Lemma ended_is_final_witness :
  exists g',
    run 2 [Reset; Move direction.left; Move direction.up; Reset] ended_board
    = Some g'
    /\ state g' = State.ended.
Proof.
  eexists. split; [vm_compute; reflexivity|].
  apply (ended_is_final 2
           [Reset; Move direction.left; Move direction.up; Reset]
           ended_board);
    [reflexivity|vm_compute; reflexivity].
Defined.

(** X7.  The generator state of an engine stays a non-zero 32-bit value:
    the constructor installs one for every 32-bit seed, and [move] and
    [reset] either leave the state or advance it by exactly two calls. *)
Theorem generator_state_kept (size : nat) (seed : Z) (o : op) (g g0 g' : Grid) :
  0 <= seed < 2 ^ 32 -> make size seed = Some g0 ->
  0 < prng_ g < 2 ^ 32 -> apply_op size o g = Some g' ->
  0 < prng_ g0 < 2 ^ 32
  /\ 0 < prng_ g' < 2 ^ 32
  /\ (prng_ g' = prng_ g
      \/ prng_ g' = snd (Xorshift.next (snd (Xorshift.next (prng_ g))))).
Proof.
  intros Hseed M Hp A.
  assert (Two : forall s, 0 < s < 2 ^ 32 ->
            0 < snd (Xorshift.next (snd (Xorshift.next s))) < 2 ^ 32).
  { intros s Hs. rewrite !next_state. apply next_nonzero, next_nonzero, Hs. }
  split; [|split].
  - unfold make in M. destruct (spawn_frame _ _ M) as (_ & _ & Pr).
    rewrite Pr. cbn [prng_]. apply Two.
    unfold Xorshift.make. destruct (Z.eqb_spec seed 0); lia.
  - destruct o as [d|]; cbn [apply_op] in A.
    + destruct (move_frame_of size d g g' A) as (_ & [Pr|Pr]); rewrite Pr;
        [exact Hp|now apply Two].
    + destruct (reset_frame_of size g g' A) as (_ & _ & Pr). rewrite Pr.
      now apply Two.
  - destruct o as [d|]; cbn [apply_op] in A.
    + apply (move_frame_of size d g g' A).
    + right. apply (reset_frame_of size g g' A).
Qed.

Lemma generator_state_kept_witness :
  0 < prng_ pair_start < 2 ^ 32
  /\ 0 < prng_ pair_moved < 2 ^ 32
  /\ (prng_ pair_moved = prng_ pair_start
      \/ prng_ pair_moved
         = snd (Xorshift.next (snd (Xorshift.next (prng_ pair_start))))).
Proof.
  apply (generator_state_kept 2 1 (Move direction.left)
           pair_start pair_start pair_moved).
  - lia.
  - vm_compute. reflexivity.
  - cbn. lia.
  - vm_compute. reflexivity.
Defined.

(** ** What the pass conserves *)

Lemma total_upd n v l :
  (n < length l)%nat ->
  board_total (upd n v l)
  = board_total l - tile_value (nth n l 0) + tile_value v.
Proof.
  revert n. induction l as [|x r IH]; intros n H; cbn in H; [lia|].
  destruct n; cbn [upd board_total nth].
  - lia.
  - rewrite IH by lia. lia.
Qed.

Lemma total_wr g p v :
  0 <= p < Z.of_nat (length g) ->
  board_total (wr g p v) = board_total g - tile_value (rd g p) + tile_value v.
Proof.
  intro H. unfold rd, wr. destruct (Z.ltb_spec p 0); [lia|].
  apply total_upd. lia.
Qed.

Lemma total_iter_swap g p q :
  0 <= p < Z.of_nat (length g) -> 0 <= q < Z.of_nat (length g) ->
  board_total (iter_swap g p q) = board_total g.
Proof.
  intros Hp Hq. unfold iter_swap.
  rewrite total_wr by (rewrite length_wr; exact Hq).
  rewrite total_wr by exact Hp.
  destruct (Z.eq_dec p q) as [->|Hne].
  - rewrite rd_wr_same by exact Hq. lia.
  - rewrite rd_wr_other by exact Hne. lia.
Qed.

Lemma tile_value_double c :
  0 < c -> tile_value (c + 1) = tile_value c + tile_value c.
Proof.
  intro Hc. unfold tile_value.
  destruct (Z.eqb_spec (c + 1) 0); [lia|].
  destruct (Z.eqb_spec c 0); [lia|].
  rewrite Z.pow_add_r by lia. lia.
Qed.

(** One step keeps the sum of the tile values and removes one tile for
    each merge. *)
Lemma step_conserves len base d n f s x r :
  line_in len base d n -> tracks len base d n f s (x :: r) ->
  0 <= cur s < 255 ->
  board_total (cells (advance d (body d f))) = board_total (cells f)
  /\ zeros (cells (advance d (body d f)))
     = zeros (cells f) + Z.of_nat (length (opt_list (body_merge d f))).
Proof.
  intros L T Hcur.
  destruct (tracks_reads _ _ _ _ _ _ _ _ L T) as (Rt & Ri & _).
  destruct (tracks_in_range _ _ _ _ _ _ _ _ L T) as (It & Ii & It' & Hne).
  pose proof (tr_length _ _ _ _ _ _ _ T) as Hl. rewrite <- Hl in It, Ii, It'.
  unfold body_merge, body. cbv zeta. rewrite Ri, Rt.
  destruct (Z.eqb_spec x 0) as [Hx|Hx];
    [cbn [cells advance opt_list length]; split; lia|].
  destruct (Z.eqb_spec (cur s) 0) as [Hz|Hz].
  { cbn [cells advance opt_list length].
    rewrite total_iter_swap, zeros_iter_swap by assumption. split; lia. }
  destruct (Z.eqb_spec x (cur s)) as [He|He].
  { cbn [cells advance opt_list length].
    rewrite (rd_wr_other (cells f) (it f) (top f) 0 Hne), Rt.
    rewrite total_wr, zeros_wr by (now rewrite length_wr).
    rewrite (rd_wr_other (cells f) (it f) (top f) 0 Hne), Rt.
    rewrite total_wr, zeros_wr by exact Ii. rewrite Ri.
    rewrite u8_small by lia.
    rewrite tile_value_double by lia. rewrite He.
    destruct (Z.eqb_spec (cur s) 0); [contradiction|].
    destruct (Z.eqb_spec (cur s + 1) 0); [lia|].
    change (0 =? 0) with true. cbv iota.
    change (tile_value 0) with 0. split; lia. }
  destruct (top f + d =? it f); cbn [cells advance opt_list length];
    [split; lia|].
  rewrite total_iter_swap, zeros_iter_swap by assumption. split; lia.
Qed.

Lemma inner_conserves len base d n (L : line_in len base d n) r :
  forall f s, tracks len base d n f s r ->
  0 <= cur s < 255 -> bounded 255 r ->
  board_total (cells (inner d (length r) f)) = board_total (cells f)
  /\ zeros (cells (inner d (length r) f))
     = zeros (cells f) + Z.of_nat (length (inner_merges d (length r) f)).
Proof.
  induction r as [|x r IH]; intros f s T Hc Hr.
  - cbn [length inner inner_merges]. split; lia.
  - cbn [length inner inner_merges].
    inversion Hr as [|? ? Hx Hr']; subst.
    destruct (step_tracks _ _ _ _ _ _ _ _ L T) as (T1 & _).
    destruct (step_conserves _ _ _ _ _ _ _ _ L T Hc) as (B1 & Z1).
    destruct (IH _ _ T1 (astep_cur 255 s x ltac:(lia) Hc Hx) Hr') as (B2 & Z2).
    rewrite B2, Z2, B1, Z1, length_app. split; lia.
Qed.

Section Conservation.

Variable size : nat.
Hypothesis size_ok : (1 <= size <= 40)%nat.
Variable dir : direction.t.

Lemma line_pass_conserves i f :
  (i < size)%nat ->
  length (cells f) = (size * size)%nat ->
  top f = line_base size dir i ->
  bounded 255 (line size dir i (cells f)) ->
  board_total (cells (line_pass size dir f)) = board_total (cells f)
  /\ zeros (cells (line_pass size dir f))
     = zeros (cells f)
       + Z.of_nat (length (inner_merges (it_stride size dir) (size - 1)
                             (line_start size dir f))).
Proof.
  intros Hi Hlen Htop Hb.
  assert (Hpos : (1 <= size)%nat) by lia.
  pose proof (line_geometry size Hpos dir i Hi) as L.
  assert (Hl : length (line size dir i (cells f)) = size) by apply length_pick.
  destruct (line size dir i (cells f)) as [|c r] eqn:El; [cbn in Hl; lia|].
  cbn [length] in Hl. apply Forall_cons_iff in Hb as [Hc Hr].
  assert (T : tracks (size * size) (line_base size dir i)
                (it_stride size dir) size
                (line_start size dir f) (lstart (c :: r) (modified f)) r).
  { constructor; cbn [line_start lstart cells top it modified done cur gap
                      changed length hd].
    - exact Hlen.
    - exact El.
    - rewrite Htop. lia.
    - rewrite Htop. lia.
    - lia.
    - reflexivity. }
  assert (Er : length r = (size - 1)%nat) by lia.
  pose proof (inner_conserves _ _ _ _ L r _ _ T Hc Hr) as S1.
  rewrite Er in S1. exact S1.
Qed.

Lemma outer_conserves m :
  forall i f,
  (i + m = size)%nat ->
  length (cells f) = (size * size)%nat ->
  top f = line_base size dir i ->
  (forall i', (i <= i' < size)%nat ->
              bounded 255 (line size dir i' (cells f))) ->
  board_total (cells (outer size dir m (Z.of_nat i) f)) = board_total (cells f)
  /\ zeros (cells (outer size dir m (Z.of_nat i) f))
     = zeros (cells f)
       + Z.of_nat (length (outer_merges size dir m (Z.of_nat i) f)).
Proof.
  induction m as [|m IH]; intros i f Him Hlen Htop Hb.
  - cbn [outer outer_merges length]. split; lia.
  - cbn [outer outer_merges].
    assert (Hi : (i < size)%nat) by lia.
    assert (Hpos : (1 <= size)%nat) by lia.
    destruct (line_pass_spec size Hpos dir i f Hi Hlen Htop)
      as (L1 & _ & _ & O1 & _).
    destruct (line_pass_conserves i f Hi Hlen Htop (Hb i ltac:(lia)))
      as (B1 & Z1).
    replace (Z.of_nat i + 1) with (Z.of_nat (S i)) by lia.
    set (f1 := line_pass size dir f) in *.
    set (f2 := {| cells := cells f1; empties := empties f1;
                  points := points f1;
                  top := top_start size dir
                         + Z.of_nat (S i) * top_stride size dir;
                  it := it f1; modified := modified f1 |}).
    destruct (IH (S i) f2 ltac:(lia) L1 eq_refl) as (B2 & Z2).
    { intros i' Hi'. change (cells f2) with (cells f1).
      rewrite (line_off_line size Hpos dir i i' (cells f) (cells f1))
        by (auto; lia).
      apply Hb. lia. }
    change (cells f2) with (cells f1) in B2, Z2.
    rewrite B2, Z2, B1, Z1, length_app. split; lia.
Qed.

Lemma helper_conserves g :
  length (grid_ g) = (size * size)%nat -> bounded 255 (grid_ g) ->
  board_total (grid_ (fst (move_helper size dir g))) = board_total (grid_ g)
  /\ zeros (grid_ (fst (move_helper size dir g)))
     = zeros (grid_ g) + Z.of_nat (length (helper_merges size dir g)).
Proof.
  intros Hlen Hb.
  assert (Hpos : (1 <= size)%nat) by lia.
  pose (f0 := {| cells := grid_ g; empties := empty_cells_count_ g;
                 points := score_ g; top := top_start size dir;
                 it := top_start size dir; modified := false |}).
  assert (Htop : top f0 = line_base size dir 0)
    by (unfold line_base; cbn [f0 top]; lia).
  apply (outer_conserves size 0 f0 eq_refl Hlen Htop).
  intros i' Hi'. unfold line.
  apply (bounded_pick 255 _ (size * size)); auto.
  apply line_geometry; lia.
Qed.

End Conservation.

Lemma zeros_tiles l : zeros l + Z.of_nat (length (tiles l)) = Z.of_nat (length l).
Proof.
  induction l as [|x r IH]; [reflexivity|].
  rewrite tiles_cons. cbn [zeros length].
  destruct (x =? 0); cbn [length]; lia.
Qed.



(** X9.  Each merge of the pass removes exactly one tile and nothing else
    does: the board after the pass holds as many tiles as before, less the
    number of merges; after the whole [move] there is one tile more when
    the pass changed the board. *)
Theorem tiles_less_merges (size : nat) (dir : direction.t) (g : Grid) :
  (1 <= size <= 40)%nat ->
  length (grid_ g) = (size * size)%nat -> bounded 255 (grid_ g) ->
  counted g -> empty_cells_count_ g <> 0 ->
  let h := fst (move_helper size dir g) in
  (length (tiles (data h)) + length (helper_merges size dir g)
   = length (tiles (data g)))%nat
  /\ exists g',
       move size dir g = Some g'
       /\ (length (tiles (data g')) + length (move_merges size dir g)
           = length (tiles (data g))
             + (if snd (move_helper size dir g) then 1 else 0))%nat.
Proof.
  intros Hs Hl B C E h. unfold data.
  destruct (helper_conserves size Hs dir g Hl B) as (_ & Z).
  fold h in Z.
  destruct (helper_spec size Hs dir g Hl) as (Lh & _). fold h in Lh.
  pose proof (zeros_tiles (grid_ g)) as Tg.
  pose proof (zeros_tiles (grid_ h)) as Th.
  assert (N : (length (tiles (grid_ h)) + length (helper_merges size dir g)
               = length (tiles (grid_ g)))%nat) by lia.
  split; [exact N|].
  unfold move_merges.
  destruct (Z.eqb_spec (empty_cells_count_ g) 0) as [|_]; [contradiction|].
  destruct (move_cases size Hs dir g Hl B C)
    as [(E0 & _)|[(_ & Hm & Hh & M)|(_ & Hm & Hne & Ch & Eh & M)]];
    [contradiction| |]; fold h in Hh || fold h in Hne, Ch, Eh, M.
  - exists g. split; [exact M|]. rewrite Hm. rewrite Hh in N. lia.
  - destruct (spawn_spec _ Eh Ch)
      as (g' & p & v & Sp & Hp & Hz & Hv & Hg & _).
    exists g'. split; [now rewrite M|]. rewrite Hm.
    pose proof (zeros_tiles (grid_ g')) as Tg'.
    rewrite Hg in Tg'. rewrite zeros_upd, length_upd, Hz in Tg' by exact Hp.
    rewrite Hg.
    assert (Hv0 : (if v =? 0 then 1 else 0) = 0)
      by (destruct Hv as [-> | ->]; reflexivity).
    rewrite Hv0 in Tg'. change (0 =? 0) with true in Tg'. cbv iota in Tg'.
    lia.
Qed.

Lemma tiles_less_merges_witness :
  let h := fst (move_helper 2 direction.left pair_board) in
  (length (tiles (data h)) + length (helper_merges 2 direction.left pair_board)
   = length (tiles (data pair_board)))%nat
  /\ exists g',
       move 2 direction.left pair_board = Some g'
       /\ (length (tiles (data g'))
           + length (move_merges 2 direction.left pair_board)
           = length (tiles (data pair_board))
             + (if snd (move_helper 2 direction.left pair_board)
                then 1 else 0))%nat.
Proof.
  apply (tiles_less_merges 2 direction.left pair_board).
  - lia.
  - reflexivity.
  - sample_engine.
  - reflexivity.
  - cbn. lia.
Defined.

(** ** The lines cover the board *)

Section Cover.

Variable size : nat.
Hypothesis size_pos : (1 <= size)%nat.

Lemma split_index q :
  0 <= q < sz size * sz size ->
  exists a b : nat,
    (a < size)%nat /\ (b < size)%nat /\ q = Z.of_nat a + Z.of_nat b * sz size.
Proof.
  intro Hq. unfold sz in *.
  assert (Hs : 0 < Z.of_nat size) by lia.
  pose proof (Z.div_mod q (Z.of_nat size) ltac:(lia)) as D.
  pose proof (Z.mod_pos_bound q (Z.of_nat size) Hs) as M.
  assert (Dq : 0 <= q / Z.of_nat size < Z.of_nat size).
  { split; [apply Z.div_pos; lia|apply Z.div_lt_upper_bound; lia]. }
  exists (Z.to_nat (q mod Z.of_nat size)), (Z.to_nat (q / Z.of_nat size)).
  rewrite !Z2Nat.id by lia. repeat split; lia.
Qed.

Lemma lines_cover dir (p : nat) :
  (p < size * size)%nat ->
  exists i k : nat,
    (i < size)%nat /\ (k < size)%nat
    /\ Z.of_nat p = line_base size dir i + Z.of_nat k * it_stride size dir.
Proof.
  intro Hp. unfold line_base. rewrite (top_start_cases size size_pos).
  unfold top_stride, it_stride.
  assert (Hq : 0 <= Z.of_nat p < sz size * sz size)
    by (unfold sz; nia).
  assert (Hq' : 0 <= sz size * sz size - 1 - Z.of_nat p < sz size * sz size)
    by lia.
  destruct dir.
  - destruct (split_index _ Hq) as (a & b & Ha & Hb & E).
    exists a, b. repeat split; auto; lia.
  - destruct (split_index _ Hq') as (a & b & Ha & Hb & E).
    exists a, b. repeat split; auto; lia.
  - destruct (split_index _ Hq) as (a & b & Ha & Hb & E).
    exists b, a. repeat split; auto; lia.
  - destruct (split_index _ Hq') as (a & b & Ha & Hb & E).
    exists b, a. repeat split; auto; lia.
Qed.

(** Two boards with the same lines are the same board. *)
Lemma lines_determine dir g g' :
  length g = (size * size)%nat -> length g' = (size * size)%nat ->
  (forall i, (i < size)%nat -> line size dir i g = line size dir i g') ->
  g = g'.
Proof.
  intros Hg Hg' H. apply (nth_ext _ _ 0 0); [congruence|].
  intros p Hp. rewrite Hg in Hp.
  destruct (lines_cover dir p Hp) as (i & k & Hi & Hk & E).
  assert (R : forall l, nth p l 0 = rd l (Z.of_nat p)).
  { intro l. unfold rd. destruct (Z.ltb_spec (Z.of_nat p) 0); [lia|].
    now rewrite Nat2Z.id. }
  rewrite !R, E.
  rewrite <- !(nth_pick _ _ _ size k Hk).
  change (nth k (line size dir i g) 0 = nth k (line size dir i g') 0).
  now rewrite H.
Qed.

End Cover.

(** ** Opposite directions *)

Lemma rd_rev g q :
  0 <= q < Z.of_nat (length g) ->
  rd (rev g) q = rd g (Z.of_nat (length g) - 1 - q).
Proof.
  intro H. unfold rd.
  destruct (Z.ltb_spec q 0); [lia|].
  destruct (Z.ltb_spec (Z.of_nat (length g) - 1 - q) 0); [lia|].
  rewrite rev_nth by lia. f_equal. lia.
Qed.

Section Mirror.

Variable size : nat.
Hypothesis size_ok : (1 <= size <= 40)%nat.

Lemma line_opposite d i g :
  (i < size)%nat -> length g = (size * size)%nat ->
  line size (opposite d) i g = line size d i (rev g).
Proof.
  intros Hi Hg. unfold line, pick. apply map_ext_in. intros k Hk.
  apply in_seq in Hk.
  assert (Hpos : (1 <= size)%nat) by lia.
  pose proof (proj2 (line_geometry size Hpos d i Hi) k ltac:(lia)) as R.
  rewrite rd_rev by (rewrite Hg; exact R).
  f_equal. rewrite Hg. unfold line_base in *.
  rewrite !(top_start_cases size Hpos) in *.
  unfold top_stride, it_stride, sz in *. rewrite Nat2Z.inj_mul.
  destruct d; cbn [opposite]; lia.
Qed.

Lemma helper_lines d g i :
  length (grid_ g) = (size * size)%nat -> bounded 255 (grid_ g) ->
  (i < size)%nat ->
  line size d i (grid_ (fst (move_helper size d g)))
  = pad size (merge_tiles (tiles (line size d i (grid_ g)))).
Proof.
  intros Hl B Hi.
  destruct (helper_spec size size_ok d g Hl) as (_ & _ & _ & _ & _ & _ & V).
  destruct (V 255 ltac:(lia) B) as (_ & _ & Ln).
  apply (Ln i Hi).
Qed.

Lemma helper_flag d g :
  length (grid_ g) = (size * size)%nat ->
  (snd (move_helper size d g) = false <->
   grid_ (fst (move_helper size d g)) = grid_ g).
Proof.
  intro Hl.
  destruct (helper_spec size size_ok d g Hl) as (_ & _ & _ & U & M & _).
  destruct (snd (move_helper size d g)).
  - split; [discriminate|]. intro E. now destruct (M eq_refl).
  - split; [|reflexivity]. intros _. now rewrite (U eq_refl).
Qed.

Lemma helper_mirror d g :
  length (grid_ g) = (size * size)%nat -> bounded 255 (grid_ g) ->
  grid_ (fst (move_helper size (opposite d) g))
  = rev (grid_ (fst (move_helper size d (with_board g (rev (grid_ g)))))).
Proof.
  intros Hl B.
  assert (Hpos : (1 <= size)%nat) by lia.
  set (g' := with_board g (rev (grid_ g))).
  assert (Hl' : length (grid_ g') = (size * size)%nat)
    by (cbn [g' with_board grid_]; now rewrite length_rev).
  assert (B' : bounded 255 (grid_ g'))
    by (cbn [g' with_board grid_]; now apply Forall_rev).
  destruct (helper_spec size size_ok (opposite d) g Hl) as (L1 & _).
  destruct (helper_spec size size_ok d g' Hl') as (L2 & _).
  apply (lines_determine size Hpos (opposite d));
    [exact L1|now rewrite length_rev|].
  intros i Hi.
  rewrite (helper_lines (opposite d) g i Hl B Hi).
  rewrite (line_opposite d i (grid_ g) Hi Hl).
  rewrite (line_opposite d i) by (rewrite ?length_rev; assumption).
  rewrite rev_involutive.
  now rewrite (helper_lines d g' i Hl' B' Hi).
Qed.

End Mirror.

(** X10.  Moving towards one border is moving towards the opposite border
    on the board read backwards: the pass for [opposite d] leaves the
    reverse of what the pass for [d] leaves on the reversed board, and
    returns the same flag. *)
Theorem opposite_is_mirror (size : nat) (d : direction.t) (g : Grid) :
  (1 <= size <= 40)%nat ->
  length (grid_ g) = (size * size)%nat -> bounded 255 (grid_ g) ->
  data (fst (move_helper size (opposite d) g))
  = rev (data (fst (move_helper size d (with_board g (rev (data g))))))
  /\ snd (move_helper size (opposite d) g)
     = snd (move_helper size d (with_board g (rev (data g)))).
Proof.
  intros Hs Hl B. unfold data.
  pose proof (helper_mirror size Hs d g Hl B) as E.
  split; [exact E|].
  set (g' := with_board g (rev (grid_ g))) in *.
  assert (Hl' : length (grid_ g') = (size * size)%nat)
    by (cbn [g' with_board grid_]; now rewrite length_rev).
  pose proof (helper_flag size Hs (opposite d) g Hl) as F1.
  pose proof (helper_flag size Hs d g' Hl') as F2.
  rewrite E in F1.
  destruct (snd (move_helper size (opposite d) g)),
           (snd (move_helper size d g')); try reflexivity.
  - apply F1. rewrite (proj1 F2 eq_refl).
    cbn [g' with_board grid_]. apply rev_involutive.
  - symmetry. apply F2.
    rewrite <- (rev_involutive (grid_ (fst (move_helper size d g')))).
    rewrite (proj1 F1 eq_refl). reflexivity.
Qed.

Lemma opposite_is_mirror_witness :
  data (fst (move_helper 3 (opposite direction.left) row_board))
  = rev (data (fst (move_helper 3 direction.left
                      (with_board row_board (rev (data row_board))))))
  /\ snd (move_helper 3 (opposite direction.left) row_board)
     = snd (move_helper 3 direction.left
              (with_board row_board (rev (data row_board)))).
Proof.
  apply (opposite_is_mirror 3 direction.left row_board).
  - lia.
  - reflexivity.
  - sample_engine.
Defined.

(** ** When a pass changes nothing *)

Lemma merge_tiles_fixed t : merge_tiles t = t <-> no_pair t = true.
Proof.
  induction t as [|a r IH]; [split; reflexivity|].
  destruct r as [|b r']; [split; reflexivity|].
  rewrite merge_tiles_cons2. cbn [no_pair].
  destruct (Z.eqb_spec a b) as [E|E]; cbn [negb andb].
  - split; [|discriminate]. intro H. injection H as H1 _. lia.
  - split.
    + intro H. injection H as H1. apply IH. exact H1.
    + intro H. f_equal. now apply IH.
Qed.

Lemma merge_tiles_positive t :
  Forall (fun x => 0 < x) t -> Forall (fun x => 0 < x) (merge_tiles t).
Proof.
  assert (G : forall t, Forall (fun x => 0 < x) t ->
                Forall (fun x => 0 < x) (merge_tiles t)
                /\ forall a, 0 < a ->
                     Forall (fun x => 0 < x) (merge_tiles (a :: t))).
  { clear t. induction t as [|b t IH]; intro H.
    - split; [constructor|]. intros a Ha. cbn. repeat constructor. exact Ha.
    - apply Forall_cons_iff in H as [Hb Ht].
      destruct (IH Ht) as (I1 & I2).
      split; [now apply I2|]. intros a Ha. rewrite merge_tiles_cons2.
      destruct (a =? b); constructor; try lia; auto. }
  intro H. now apply G.
Qed.

Lemma tiles_positive b l : bounded b l -> Forall (fun x => 0 < x) (tiles l).
Proof.
  induction 1 as [|x l Hx _ IH]; [constructor|].
  rewrite tiles_cons. destruct (Z.eqb_spec x 0); [exact IH|].
  constructor; [lia|exact IH].
Qed.

Lemma tiles_pad n t :
  Forall (fun x => 0 < x) t -> tiles (pad n t) = t.
Proof.
  intro H. unfold pad. rewrite tiles_app, tiles_repeat, app_nil_r.
  apply tiles_nonzero. eapply Forall_impl; [|exact H]. cbn. intros; lia.
Qed.

(** A line is left as it is by the rule of the game exactly when it is
    settled. *)
Lemma settled_iff b l :
  bounded b l ->
  (pad (length l) (merge_tiles (tiles l)) = l <-> settled l).
Proof.
  intro B. pose proof (tiles_positive b l B) as P. unfold settled. split.
  - intro E.
    assert (T : merge_tiles (tiles l) = tiles l).
    { rewrite <- E at 2. symmetry. apply tiles_pad.
      now apply merge_tiles_positive. }
    split; [now rewrite <- T, E|now apply merge_tiles_fixed].
  - intros (E & N). apply merge_tiles_fixed in N. now rewrite N, <- E.
Qed.

(** X11.  The pass returns [false], so that [move] spawns nothing, exactly
    when nothing can move in that direction: in every line the tiles are
    already packed against the leading edge and no two neighbouring tiles
    are equal. *)
Theorem noop_iff_settled (size : nat) (d : direction.t) (g : Grid) :
  (1 <= size <= 40)%nat ->
  length (grid_ g) = (size * size)%nat -> bounded 255 (grid_ g) ->
  (snd (move_helper size d g) = false <->
   forall i, (i < size)%nat -> settled (line size d i (data g))).
Proof.
  intros Hs Hl B. unfold data.
  assert (Hpos : (1 <= size)%nat) by lia.
  assert (BL : forall i, (i < size)%nat ->
                 bounded 255 (line size d i (grid_ g))).
  { intros i Hi. apply (bounded_pick 255 _ (size * size)); auto.
    now apply line_geometry. }
  assert (LL : forall i, length (line size d i (grid_ g)) = size)
    by (intro i; apply length_pick).
  rewrite (helper_flag size Hs d g Hl). split.
  - intros E i Hi. apply (settled_iff 255 _ (BL i Hi)).
    rewrite LL, <- (helper_lines size Hs d g i Hl B Hi). now rewrite E.
  - intro S. destruct (helper_spec size Hs d g Hl) as (L1 & _).
    apply (lines_determine size Hpos d); [exact L1|exact Hl|].
    intros i Hi. rewrite (helper_lines size Hs d g i Hl B Hi).
    rewrite <- (LL i) at 1. now apply (settled_iff 255 _ (BL i Hi)), S.
Qed.

Lemma noop_iff_settled_witness :
  snd (move_helper 2 direction.right pair_start) = false <->
  forall i, (i < 2)%nat -> settled (line 2 direction.right i (data pair_start)).
Proof.
  apply (noop_iff_settled 2 direction.right pair_start).
  - lia.
  - reflexivity.
  - sample_engine.
Defined.

(** ** The benchmark loop after the end of a game *)

Section Benchmark.

Variable size : nat.
Hypothesis size_ok : (1 <= size <= 40)%nat.

Lemma single_tile_sound l :
  single_tile size l ->
  length l = (size * size)%nat /\ bounded 255 l
  /\ zeros l = Z.of_nat (size * size) - 1.
Proof.
  intros (p & v & Hp & Hv & ->). split; [|split].
  - now rewrite length_upd, repeat_length.
  - apply Forall_forall. intros x Hx.
    apply (In_nth _ _ 0) in Hx as (q & Hq & <-).
    destruct (Nat.eq_dec p q) as [<-|Hne].
    + rewrite nth_upd_same by (now rewrite repeat_length).
      destruct Hv as [-> | ->]; lia.
    + rewrite nth_upd_other, nth_repeat by exact Hne. lia.
  - rewrite zeros_upd by (now rewrite repeat_length).
    rewrite zeros_repeat, nth_repeat.
    destruct Hv as [-> | ->]; cbn; lia.
Qed.

Lemma bench_body_ended b :
  length (grid_ (b_grid b)) = (size * size)%nat ->
  bounded 255 (grid_ (b_grid b)) -> counted (b_grid b) ->
  state (b_grid b) = State.ended ->
  exists b',
    bench_body size b = Some b'
    /\ state (b_grid b') = State.ended
    /\ single_tile size (grid_ (b_grid b'))
    /\ counted (b_grid b')
    /\ b_rand b' = snd (Xorshift.next (b_rand b))
    /\ b_count b' = (b_count b + 1) mod 2 ^ 64.
Proof.
  intros Hl B C St. unfold bench_body.
  destruct (Xorshift.next (b_rand b)) as [r rand']. cbn [snd].
  destruct (move_counted size size_ok (direction_of (r mod 4)) (b_grid b)
              Hl B C) as (g1 & M & _ & L1).
  rewrite M.
  destruct (move_frame_of _ _ _ _ M) as (S1 & _).
  assert (E1 : state g1 = State.ended).
  { unfold state in *. rewrite S1, St. now destruct (_ =? _). }
  rewrite E1.
  destruct (reset_spec size size_ok g1 L1)
    as (g2 & p & v & R & Hp & Hv & Hg & He & _ & Hst).
  rewrite R. eexists. split; [reflexivity|]. cbn [b_grid b_rand b_count].
  split; [unfold state in *; now rewrite Hst|].
  split; [now exists p, v|].
  split; [apply (fresh_board_counted size g2 p v); assumption|].
  split; reflexivity.
Qed.

Lemma bench_loop_ended n :
  forall b,
  length (grid_ (b_grid b)) = (size * size)%nat ->
  bounded 255 (grid_ (b_grid b)) -> counted (b_grid b) ->
  state (b_grid b) = State.ended ->
  exists b',
    bench_loop size (S n) b = Some b'
    /\ state (b_grid b') = State.ended
    /\ single_tile size (grid_ (b_grid b'))
    /\ b_count b' = (b_count b + Z.of_nat (S n)) mod 2 ^ 64.
Proof.
  induction n as [|n IH]; intros b Hl B C St.
  - destruct (bench_body_ended b Hl B C St)
      as (b' & Bd & St' & T' & _ & _ & Cn).
    exists b'. cbn [bench_loop]. rewrite Bd. auto.
  - destruct (bench_body_ended b Hl B C St)
      as (b1 & Bd & St1 & T1 & C1 & _ & Cn1).
    destruct (single_tile_sound _ T1) as (L1 & B1 & _).
    destruct (IH b1 L1 B1 C1 St1) as (b' & Lp & St' & T' & Cn).
    exists b'. split; [|split; [exact St'|split; [exact T'|]]].
    + change (bench_loop size (S (S n)) b)
        with (match bench_body size b with
              | Some b0 => bench_loop size (S n) b0
              | None => None
              end).
      now rewrite Bd.
    + rewrite Cn, Cn1. rewrite Z.add_mod_idemp_l by lia. f_equal. lia.
Qed.

End Benchmark.

(** X12.  Once the engine reports [ended], the benchmark loop no longer
    plays a game: [reset] leaves the status [ended], so every later
    iteration calls [reset] again and ends on a board with a single tile,
    while [count] goes on counting. *)
Theorem benchmark_after_end (size : nat) (n : nat) (b : bench) :
  (1 <= size <= 40)%nat ->
  length (data (b_grid b)) = (size * size)%nat ->
  bounded 255 (data (b_grid b)) -> counted (b_grid b) ->
  state (b_grid b) = State.ended ->
  exists b',
    bench_loop size (S n) b = Some b'
    /\ state (b_grid b') = State.ended
    /\ single_tile size (data (b_grid b'))
    /\ b_count b' = (b_count b + Z.of_nat (S n)) mod 2 ^ 64.
Proof. intros Hs. apply (bench_loop_ended size Hs n b). Qed.

Lemma benchmark_after_end_witness :
  exists b',
    bench_loop 2 3 {| b_grid := ended_board; b_rand := 1; b_count := 7 |}
    = Some b'
    /\ state (b_grid b') = State.ended
    /\ single_tile 2 (data (b_grid b'))
    /\ b_count b' = (7 + Z.of_nat 3) mod 2 ^ 64.
Proof.
  apply (benchmark_after_end 2 2
           {| b_grid := ended_board; b_rand := 1; b_count := 7 |}).
  - lia.
  - reflexivity.
  - sample_engine.
  - reflexivity.
  - reflexivity.
Defined.

(** ** The border rows of the skeleton *)

Lemma set_glyph_middle (a : list glyph) x c b :
  set_glyph (length a) c (a ++ x :: b) = a ++ c :: b.
Proof. induction a as [|y a IH]; [reflexivity|]. cbn. now rewrite IH. Qed.

Lemma store_middle (a : list glyph) x c b :
  store (a ++ x :: b) (length a) c = Some (a ++ c :: b).
Proof.
  unfold store. rewrite length_app. cbn [length].
  destruct (Nat.ltb_spec (length a) (length a + S (length b))); [|lia].
  now rewrite set_glyph_middle.
Qed.

Lemma hlines_spec w :
  forall pre rest,
  hlines w (pre ++ repeat blank w ++ rest) (length pre)
  = Some (pre ++ repeat HLINE w ++ rest, (length pre + w)%nat).
Proof.
  induction w as [|w IH]; intros pre rest; cbn [hlines repeat app].
  - now rewrite Nat.add_0_r.
  - rewrite store_middle.
    replace (pre ++ HLINE :: repeat blank w ++ rest)
      with ((pre ++ [HLINE]) ++ repeat blank w ++ rest)
      by (now rewrite <- app_assoc).
    replace (S (length pre)) with (length (pre ++ [HLINE]))
      by (rewrite length_app; cbn; lia).
    rewrite IH, <- app_assoc, length_app. cbn [app length].
    do 2 f_equal. lia.
Qed.

Lemma length_cell_groups k w sep :
  length (cell_groups k w sep) = (k * (w + 1))%nat.
Proof.
  unfold cell_groups. induction k as [|k IH]; [reflexivity|].
  cbn [repeat concat]. rewrite !length_app, repeat_length, IH. cbn. lia.
Qed.

Lemma cell_groups_snoc k w sep :
  cell_groups (S k) w sep = cell_groups k w sep ++ repeat HLINE w ++ [sep].
Proof.
  unfold cell_groups. induction k as [|k IH].
  - cbn. now rewrite app_nil_r.
  - cbn [repeat concat] in *. rewrite IH at 1. now rewrite <- !app_assoc.
Qed.

Lemma blank_groups k w rest :
  repeat blank (k * (w + 1) + rest)
  = concat (repeat (repeat blank w ++ [blank]) k) ++ repeat blank rest.
Proof.
  induction k as [|k IH]; [reflexivity|].
  cbn [repeat concat Nat.mul].
  replace (w + 1 + k * (w + 1) + rest)%nat
    with (w + (1 + (k * (w + 1) + rest)))%nat by lia.
  rewrite repeat_app. cbn [repeat Nat.add]. rewrite IH.
  now rewrite <- !app_assoc.
Qed.

Lemma groups_spec w sep n :
  forall pre rest,
  groups n w sep
    (pre ++ concat (repeat (repeat blank w ++ [blank]) n) ++ rest)
    (length pre)
  = Some (pre ++ cell_groups n w sep ++ rest,
          (length pre + n * (w + 1))%nat).
Proof.
  induction n as [|n IH]; intros pre rest; cbn [groups repeat concat].
  - cbn. now rewrite Nat.add_0_r.
  - rewrite <- !app_assoc. rewrite hlines_spec. cbn [app].
    replace (pre ++ repeat HLINE w ++
               blank :: concat (repeat (repeat blank w ++ [blank]) n) ++ rest)
      with ((pre ++ repeat HLINE w) ++
              blank :: concat (repeat (repeat blank w ++ [blank]) n) ++ rest)
      by (now rewrite <- app_assoc).
    replace (length pre + w)%nat with (length (pre ++ repeat HLINE w))
      by (now rewrite length_app, repeat_length).
    rewrite store_middle.
    replace ((pre ++ repeat HLINE w) ++
               sep :: concat (repeat (repeat blank w ++ [blank]) n) ++ rest)
      with ((pre ++ repeat HLINE w ++ [sep]) ++
              concat (repeat (repeat blank w ++ [blank]) n) ++ rest)
      by (now rewrite <- !app_assoc).
    replace (S (length (pre ++ repeat HLINE w)))
      with (length (pre ++ repeat HLINE w ++ [sep]))
      by (rewrite !length_app; cbn; lia).
    rewrite IH. unfold cell_groups. cbn [repeat concat].
    rewrite !length_app, repeat_length, <- !app_assoc. cbn [length app].
    do 2 f_equal. lia.
Qed.

Lemma border_row_spec m w first sep last :
  border_row (S m) w first sep last
  = Some (first :: cell_groups m w sep ++ repeat HLINE w ++ [last],
          ((w + 1) * S m + 1)%nat).
Proof.
  unfold border_row.
  replace ((w + 1) * S m + 1)%nat with (S (S m * (w + 1) + 0)) by lia.
  cbn [repeat]. change (store (blank :: ?a) 0 first) with (Some (first :: a)).
  rewrite blank_groups.
  pose proof (groups_spec w sep (S m) [first] (repeat blank 0)) as G.
  cbn [app length repeat] in G. cbn [repeat]. rewrite G. clear G.
  rewrite app_nil_r, cell_groups_snoc.
  replace (first :: cell_groups m w sep ++ repeat HLINE w ++ [sep])
    with ((first :: cell_groups m w sep ++ repeat HLINE w) ++ sep :: [])
    by (cbn [app]; now rewrite <- app_assoc).
  replace (length ((first :: cell_groups m w sep ++ repeat HLINE w) ++ [sep]) - 1)%nat
    with (length (first :: cell_groups m w sep ++ repeat HLINE w))
    by (rewrite length_app; cbn [length]; lia).
  rewrite store_middle. cbn [app]. rewrite <- app_assoc.
  do 2 f_equal. lia.
Qed.

(** X13.  For a board of at least one cell per side, each of the three
    lambdas of [draw_skeleton] writes inside its array only and leaves the
    iterator at [end()]: the row is the first corner or tee, [n] runs of [w]
    horizontal lines separated by [n - 1] tees or crosses, and the last
    corner or tee, which [array.back()] writes over the separator that
    followed the last run. *)
Theorem border_rows_fit (n w : nat) :
  (1 <= n)%nat ->
  top_row n w
  = Some (ULCORNER :: cell_groups (n - 1) w TTEE
                      ++ repeat HLINE w ++ [URCORNER],
          ((w + 1) * n + 1)%nat)
  /\ middle_row n w
     = Some (LTEE :: cell_groups (n - 1) w PLUS ++ repeat HLINE w ++ [RTEE],
             ((w + 1) * n + 1)%nat)
  /\ bottom_row n w
     = Some (LLCORNER :: cell_groups (n - 1) w BTEE
                         ++ repeat HLINE w ++ [LRCORNER],
             ((w + 1) * n + 1)%nat).
Proof.
  intro Hn. destruct n as [|m]; [lia|].
  replace (S m - 1)%nat with m by lia.
  unfold top_row, middle_row, bottom_row.
  now rewrite !border_row_spec.
Qed.

Lemma border_rows_fit_witness :
  top_row 5 9
  = Some (ULCORNER :: cell_groups (5 - 1) 9 TTEE
                      ++ repeat HLINE 9 ++ [URCORNER],
          ((9 + 1) * 5 + 1)%nat)
  /\ middle_row 5 9
     = Some (LTEE :: cell_groups (5 - 1) 9 PLUS ++ repeat HLINE 9 ++ [RTEE],
             ((9 + 1) * 5 + 1)%nat)
  /\ bottom_row 5 9
     = Some (LLCORNER :: cell_groups (5 - 1) 9 BTEE
                         ++ repeat HLINE 9 ++ [LRCORNER],
             ((9 + 1) * 5 + 1)%nat).
Proof. apply (border_rows_fit 5 9). lia. Defined.

(** ** Rows and columns *)

Lemma rd_nat g (p : nat) : rd g (Z.of_nat p) = nth p g 0.
Proof.
  unfold rd. destruct (Z.ltb_spec (Z.of_nat p) 0); [lia|].
  now rewrite Nat2Z.id.
Qed.

Section Transpose.

Variable size : nat.
Hypothesis size_ok : (1 <= size <= 40)%nat.

Lemma length_transpose g : length (transpose size g) = (size * size)%nat.
Proof. unfold transpose. now rewrite length_map, length_seq. Qed.

Lemma nth_transpose g p :
  (p < size * size)%nat ->
  nth p (transpose size g) 0 = nth ((p mod size) * size + p / size) g 0.
Proof.
  intro Hp. unfold transpose.
  rewrite (nth_indep _ 0 (nth ((0 mod size) * size + 0 / size) g 0))
    by (now rewrite length_map, length_seq).
  rewrite (map_nth (fun p => nth ((p mod size) * size + p / size) g 0)).
  now rewrite seq_nth.
Qed.

Lemma cell_index i k :
  (i < size)%nat -> (k < size)%nat ->
  ((i * size + k) mod size = k /\ (i * size + k) / size = i
   /\ i * size + k < size * size)%nat.
Proof.
  intros Hi Hk. repeat split.
  - rewrite Nat.add_comm, Nat.Div0.mod_add. now apply Nat.mod_small.
  - rewrite Nat.add_comm, Nat.div_add by lia.
    rewrite Nat.div_small by exact Hk. reflexivity.
  - nia.
Qed.

Lemma bounded_transpose b g :
  0 < b -> bounded b g -> bounded b (transpose size g).
Proof.
  intros Hb B. unfold transpose, bounded. apply Forall_map, Forall_forall.
  intros p _. 
  destruct (Nat.lt_ge_cases ((p mod size) * size + p / size) (length g)) as [H|H].
  - unfold bounded in B. rewrite Forall_forall in B. apply B. now apply nth_In.
  - rewrite nth_overflow by exact H. lia.
Qed.

(** Column [i] of a board, read downwards, is row [i] of the transposed
    board. *)
Lemma line_up_left i g :
  (i < size)%nat ->
  line size direction.up i g = line size direction.left i (transpose size g).
Proof.
  intro Hi. unfold line, pick. apply map_ext_in. intros k Hk.
  apply in_seq in Hk.
  assert (Hpos : (1 <= size)%nat) by lia.
  unfold line_base. rewrite !(top_start_cases size Hpos).
  unfold top_stride, it_stride, sz.
  replace (0 + Z.of_nat i * 1 + Z.of_nat k * Z.of_nat size)
    with (Z.of_nat (k * size + i)) by lia.
  replace (0 + Z.of_nat i * Z.of_nat size + Z.of_nat k * 1)
    with (Z.of_nat (i * size + k)) by lia.
  rewrite !rd_nat.
  destruct (cell_index i k Hi ltac:(lia)) as (M & D & R).
  now rewrite nth_transpose, M, D by exact R.
Qed.

Lemma transpose_involutive g :
  length g = (size * size)%nat -> transpose size (transpose size g) = g.
Proof.
  intro Hg. apply (nth_ext _ _ 0 0); [now rewrite length_transpose|].
  intros p Hp. rewrite length_transpose in Hp.
  assert (Hs : size <> 0%nat) by lia.
  pose proof (Nat.mod_upper_bound p size Hs) as Hm.
  assert (Hd : (p / size < size)%nat)
    by (apply Nat.Div0.div_lt_upper_bound; lia).
  rewrite nth_transpose by exact Hp.
  destruct (cell_index (p mod size) (p / size) Hm Hd) as (M & D & R).
  rewrite nth_transpose, M, D by exact R.
  f_equal. rewrite (Nat.div_mod_eq p size) at 3. lia.
Qed.

Lemma helper_transpose g :
  length (grid_ g) = (size * size)%nat -> bounded 255 (grid_ g) ->
  grid_ (fst (move_helper size direction.up g))
  = transpose size
      (grid_ (fst (move_helper size direction.left
                     (with_board g (transpose size (grid_ g)))))).
Proof.
  intros Hl B.
  assert (Hpos : (1 <= size)%nat) by lia.
  set (g' := with_board g (transpose size (grid_ g))).
  assert (Hl' : length (grid_ g') = (size * size)%nat)
    by (cbn [g' with_board grid_]; apply length_transpose).
  assert (B' : bounded 255 (grid_ g'))
    by (cbn [g' with_board grid_]; apply bounded_transpose; [lia|exact B]).
  destruct (helper_spec size size_ok direction.up g Hl) as (L1 & _).
  destruct (helper_spec size size_ok direction.left g' Hl') as (L2 & _).
  apply (lines_determine size Hpos direction.up);
    [exact L1|apply length_transpose|].
  intros i Hi.
  rewrite (helper_lines size size_ok direction.up g i Hl B Hi).
  rewrite (line_up_left i (grid_ g) Hi).
  rewrite (line_up_left i _ Hi).
  rewrite transpose_involutive by exact L2.
  now rewrite (helper_lines size size_ok direction.left g' i Hl' B' Hi).
Qed.

End Transpose.

(** X14.  Moving up is moving left on the transposed board: the pass for
    [up] leaves the transpose of what the pass for [left] leaves on the
    transposed board, and returns the same flag. *)
Theorem up_is_transposed_left (size : nat) (g : Grid) :
  (1 <= size <= 40)%nat ->
  length (grid_ g) = (size * size)%nat -> bounded 255 (grid_ g) ->
  data (fst (move_helper size direction.up g))
  = transpose size
      (data (fst (move_helper size direction.left
                    (with_board g (transpose size (data g))))))
  /\ snd (move_helper size direction.up g)
     = snd (move_helper size direction.left
              (with_board g (transpose size (data g)))).
Proof.
  intros Hs Hl B. unfold data.
  pose proof (helper_transpose size Hs g Hl B) as E.
  split; [exact E|].
  set (g' := with_board g (transpose size (grid_ g))) in *.
  assert (Hl' : length (grid_ g') = (size * size)%nat)
    by (cbn [g' with_board grid_]; apply length_transpose).
  destruct (helper_spec size Hs direction.left g' Hl') as (L2 & _).
  pose proof (helper_flag size Hs direction.up g Hl) as F1.
  pose proof (helper_flag size Hs direction.left g' Hl') as F2.
  rewrite E in F1.
  destruct (snd (move_helper size direction.up g)),
           (snd (move_helper size direction.left g')); try reflexivity.
  - apply F1. rewrite (proj1 F2 eq_refl).
    cbn [g' with_board grid_]. now apply transpose_involutive.
  - symmetry. apply F2.
    rewrite <- (transpose_involutive size Hs
                  (grid_ (fst (move_helper size direction.left g'))) L2).
    rewrite (proj1 F1 eq_refl). reflexivity.
Qed.

Lemma up_is_transposed_left_witness :
  data (fst (move_helper 3 direction.up row_board))
  = transpose 3
      (data (fst (move_helper 3 direction.left
                    (with_board row_board (transpose 3 (data row_board))))))
  /\ snd (move_helper 3 direction.up row_board)
     = snd (move_helper 3 direction.left
              (with_board row_board (transpose 3 (data row_board)))).
Proof.
  apply (up_is_transposed_left 3 row_board).
  - lia.
  - reflexivity.
  - sample_engine.
Defined.

(** ** The largest exponent *)

Lemma merge_tiles_below b t :
  Forall (fun x => 0 < x < b) t ->
  Forall (fun x => 0 < x < b + 1) (merge_tiles t).
Proof.
  assert (G : forall t, Forall (fun x => 0 < x < b) t ->
                Forall (fun x => 0 < x < b + 1) (merge_tiles t)
                /\ forall a, 0 < a < b ->
                     Forall (fun x => 0 < x < b + 1) (merge_tiles (a :: t))).
  { clear t. induction t as [|c t IH]; intro H.
    - split; [constructor|]. intros a Ha. cbn. repeat constructor; lia.
    - apply Forall_cons_iff in H as [Hc Ht].
      destruct (IH Ht) as (I1 & I2).
      split; [now apply I2|]. intros a Ha. rewrite merge_tiles_cons2.
      destruct (a =? c); constructor; try lia; auto. }
  intro H. now apply G.
Qed.

Lemma tiles_below b l : bounded b l -> Forall (fun x => 0 < x < b) (tiles l).
Proof.
  induction 1 as [|x l Hx _ IH]; [constructor|].
  rewrite tiles_cons. destruct (Z.eqb_spec x 0); [exact IH|].
  constructor; [lia|exact IH].
Qed.

Lemma bounded_pad b n t :
  0 < b -> Forall (fun x => 0 < x < b) t -> bounded b (pad n t).
Proof.
  intros Hb H. unfold pad, bounded. apply Forall_app. split.
  - eapply Forall_impl; [|exact H]. cbn. intros; lia.
  - apply Forall_forall. intros x Hx. apply repeat_spec in Hx. lia.
Qed.

Lemma bounded_upd b p v l :
  0 <= v < b -> bounded b l -> bounded b (upd p v l).
Proof.
  intros Hv H. revert p. induction H as [|x l Hx Hl IH]; intro p.
  - constructor.
  - destruct p; cbn [upd]; constructor.
    + exact Hv.
    + exact Hl.
    + exact Hx.
    + apply IH.
Qed.

Section Growth.

Variable size : nat.
Hypothesis size_ok : (1 <= size <= 40)%nat.

Lemma helper_below d g b :
  length (grid_ g) = (size * size)%nat ->
  0 < b <= 255 -> bounded b (grid_ g) ->
  bounded (b + 1) (grid_ (fst (move_helper size d g))).
Proof.
  intros Hl Hb B.
  assert (Hpos : (1 <= size)%nat) by lia.
  assert (B255 : bounded 255 (grid_ g))
    by (eapply Forall_impl; [|exact B]; cbn; intros; lia).
  destruct (helper_spec size size_ok d g Hl) as (L1 & _).
  apply Forall_forall. intros x Hx.
  apply (In_nth _ _ 0) in Hx as (p & Hp & <-). rewrite L1 in Hp.
  destruct (lines_cover size Hpos d p Hp) as (i & k & Hi & Hk & E).
  rewrite <- rd_nat, E, <- (nth_pick _ _ _ size k Hk).
  change (pick ?g (line_base size d i) (it_stride size d) size)
    with (line size d i g).
  rewrite (helper_lines size size_ok d g i Hl B255 Hi).
  assert (BL : bounded (b + 1)
                 (pad size (merge_tiles (tiles (line size d i (grid_ g)))))).
  { apply bounded_pad; [lia|]. apply merge_tiles_below, tiles_below.
    apply (bounded_pick b _ (size * size)); auto. now apply line_geometry. }
  unfold bounded in BL. rewrite Forall_forall in BL. apply BL.
  apply nth_In. unfold pad. rewrite length_app, repeat_length.
  pose proof (length_pick (grid_ (fst (move_helper size d g)))
                (line_base size d i) (it_stride size d) size) as LP.
  change (pick ?g (line_base size d i) (it_stride size d) size)
    with (line size d i g) in LP.
  rewrite (helper_lines size size_ok d g i Hl B255 Hi) in LP.
  unfold pad in LP. rewrite length_app, repeat_length in LP. lia.
Qed.

End Growth.

(** X15.  A move raises the largest exponent of the board by at most one:
    if every exponent is below [b], every exponent after the pass is below
    [b + 1], and so is every exponent after the whole [move], whose spawned
    tile has exponent 1 or 2. *)
Theorem exponent_grows_by_one
    (size : nat) (d : direction.t) (g : Grid) (b : Z) :
  (1 <= size <= 40)%nat ->
  length (grid_ g) = (size * size)%nat ->
  2 <= b <= 254 -> bounded b (data g) -> counted g ->
  bounded (b + 1) (data (fst (move_helper size d g)))
  /\ exists g', move size d g = Some g' /\ bounded (b + 1) (data g').
Proof.
  intros Hs Hl Hb B C. unfold data in *.
  pose proof (helper_below size Hs d g b Hl ltac:(lia) B) as BH.
  split; [exact BH|].
  assert (B255 : bounded 255 (grid_ g))
    by (eapply Forall_impl; [|exact B]; cbn; intros; lia).
  assert (B1 : bounded (b + 1) (grid_ g))
    by (eapply Forall_impl; [|exact B]; cbn; intros; lia).
  destruct (move_cases size Hs d g Hl B255 C)
    as [(E & M)|[(E & Hm & Hh & M)|(E & Hm & _ & Ch & Eh & M)]].
  - exists (end_game g). split; [exact M|exact B1].
  - exists g. split; [exact M|exact B1].
  - destruct (spawn_spec _ Eh Ch)
      as (g' & p & v & Sp & Hp & Hz & Hv & Hg & _).
    exists g'. split; [now rewrite M|]. rewrite Hg.
    apply bounded_upd; [destruct Hv as [-> | ->]; lia|exact BH].
Qed.

Lemma exponent_grows_by_one_witness :
  bounded (8 + 1) (data (fst (move_helper 3 direction.left row_board)))
  /\ exists g',
       move 3 direction.left row_board = Some g'
       /\ bounded (8 + 1) (data g').
Proof.
  apply (exponent_grows_by_one 3 direction.left row_board 8).
  - lia.
  - reflexivity.
  - lia.
  - sample_engine.
  - reflexivity.
Defined.
